(** * DisorderFromAlphaFold: run-length disorder analysis over pLDDT scores

    A shallow embedding of [src/DisorderFromAlphaFold.py].  Python values are
    modelled as follows.

    - A numpy integer array is a [list Z].  Every integer the program stores
      is a position in, or a length of, one of its own arrays, so it stays
      far below the int64 limit and the arithmetic is exact (see
      [stretch_values_bounded] at the end of the general results).
    - A pLDDT array is a [list score] for an arbitrary type [score] with the
      two comparisons [<=] and [>=] against the threshold taken as boolean
      functions.  Nothing is assumed about them, so the results cover
      floating point scores, NaN included (both comparisons are then false).
    - True division of two integers is the exact rational in [Q].
    - Exceptions are an explicit result type; the only unbounded loop (the
      [while] measuring one stretch) runs on fuel and reports [Diverge] when
      the fuel is exhausted. *)

From Stdlib Require Import ZArith List Bool Lia QArith Sorted.
From Stdlib Require String.
Import String.StringSyntax.
Import ListNotations.
Delimit Scope string_scope with string.
Local Open Scope Z_scope.

(** ** Python and numpy primitives used by the source *)

Module Py.

Inductive exn : Type :=
| IndexError
| ValueError
| ZeroDivisionError
| StopIteration
| TypeError
| AssertionError (msg : String.string).

Inductive result (A : Type) : Type :=
| Ok (a : A)
| Raise (e : exn)
| Diverge.

Arguments Ok {A} a.
Arguments Raise {A} e.
Arguments Diverge {A}.
Arguments AssertionError msg%_string.

Definition bind {A B : Type} (c : result A) (k : A -> result B) : result B :=
  match c with
  | Ok a => k a
  | Raise e => Raise e
  | Diverge => Diverge
  end.

(** [len(l)] *)
Definition len {A : Type} (l : list A) : Z := Z.of_nat (length l).

(** [l[i]]: a negative index counts from the end, anything outside the
    array raises [IndexError]. *)
Definition getitem {A : Type} (l : list A) (i : Z) : result A :=
  let j := if i <? 0 then i + len l else i in
  if (0 <=? j) && (j <? len l) then
    match nth_error l (Z.to_nat j) with
    | Some a => Ok a
    | None => Raise IndexError
    end
  else Raise IndexError.

(** [l[i] = v] *)
Fixpoint replace_nth {A : Type} (n : nat) (v : A) (l : list A) : list A :=
  match l, n with
  | [], _ => []
  | _ :: t, O => v :: t
  | a :: t, S k => a :: replace_nth k v t
  end.

Definition setitem {A : Type} (l : list A) (i : Z) (v : A) : result (list A) :=
  let j := if i <? 0 then i + len l else i in
  if (0 <=? j) && (j <? len l) then Ok (replace_nth (Z.to_nat j) v l)
  else Raise IndexError.

(** One slice bound: negative bounds count from the end, and every bound
    is clamped to the array. *)
Definition clamp (n i : Z) : Z :=
  if i <? 0 then Z.max 0 (i + n) else Z.min i n.

(** [l[lo:hi]], either bound possibly omitted. *)
Definition slice {A : Type} (l : list A) (lo hi : option Z) : list A :=
  let n := len l in
  let a := match lo with Some i => clamp n i | None => 0 end in
  let b := match hi with Some i => clamp n i | None => n end in
  firstn (Z.to_nat (b - a)) (skipn (Z.to_nat a) l).

(** [assert c, msg] *)
Definition assert (c : bool) (msg : String.string) : result unit :=
  if c then Ok tt else Raise (AssertionError msg).

Arguments assert c%_bool msg%_string.

(** [a / b] on integers (true division).  The program divides by
    [len(pLDDTs)] only after a satisfying index was found, so the zero
    divisor is never reached (see [analyze_some]). *)
Definition truediv (a b : Z) : result Q :=
  if b =? 0 then Raise ZeroDivisionError
  else Ok (inject_Z a / inject_Z b)%Q.

(** [sum(l)] *)
Definition sum (l : list Z) : Z := fold_left Z.add l 0.

(** [for i in range(n): s = body i s] *)
Fixpoint for_range_from {S : Type} (i : Z) (n : nat)
    (body : Z -> S -> result S) (s : S) : result S :=
  match n with
  | O => Ok s
  | Datatypes.S k => bind (body i s) (for_range_from (i + 1) k body)
  end.

Definition for_range {S : Type} (n : Z) (body : Z -> S -> result S) (s : S)
    : result S :=
  for_range_from 0 (Z.to_nat n) body s.

(** [next(iter(l))] *)
Definition next {A : Type} (l : list A) : result A :=
  match l with
  | a :: _ => Ok a
  | [] => Raise StopIteration
  end.

(** [[f(x) for x in l]] *)
Fixpoint comprehension {A B : Type} (f : A -> result B) (l : list A)
    : result (list B) :=
  match l with
  | [] => Ok []
  | a :: t => bind (f a) (fun b => bind (comprehension f t) (fun bs => Ok (b :: bs)))
  end.

End Py.

Notation "x <- c ;; k" := (Py.bind c (fun x => k))
  (at level 61, c at next level, right associativity).

Module Np.
Import Py.

(** [np.argwhere(mask)[:, 0]] on a one-dimensional boolean array: the
    positions holding [True], ascending. *)
Fixpoint argwhere_from (i : Z) (mask : list bool) : list Z :=
  match mask with
  | [] => []
  | b :: m => if b then i :: argwhere_from (i + 1) m else argwhere_from (i + 1) m
  end.

Definition argwhere (mask : list bool) : list Z := argwhere_from 0 mask.

(** [np.where(mask)[0]] on a one-dimensional array is the same list. *)
Definition where_ (mask : list bool) : list Z := argwhere mask.

(** [np.append(l, v)] *)
Definition append (l : list Z) (v : Z) : list Z := l ++ [v].

(** [np.insert(l, 0, v)] *)
Definition insert0 (l : list Z) (v : Z) : list Z := v :: l.

(** [np.zeros(n).astype(np.int64)] *)
Definition zeros (n : Z) : list Z := repeat 0 (Z.to_nat n).

(** [a - b] on one-dimensional arrays, with numpy's broadcasting of a
    one-element operand; other shape mismatches raise [ValueError]. *)
Definition sub (a b : list Z) : result (list Z) :=
  if len a =? len b then Ok (map (fun p => fst p - snd p) (combine a b))
  else match a, b with
       | [x], _ => Ok (map (fun y => x - y) b)
       | _, [y] => Ok (map (fun x => x - y) a)
       | _, _ => Raise ValueError
       end.

(** [a > c] and [a >= c] against a scalar *)
Definition gt (a : list Z) (c : Z) : list bool := map (fun x => c <? x) a.
Definition ge (a : list Z) (c : Z) : list bool := map (fun x => c <=? x) a.

(** [a + c] with a scalar *)
Definition adds (a : list Z) (c : Z) : list Z := map (fun x => x + c) a.

(** [a[mask]]: boolean-mask selection *)
Fixpoint select (a : list Z) (mask : list bool) : list Z :=
  match a, mask with
  | x :: a', b :: m => if b then x :: select a' m else select a' m
  | _, _ => []
  end.

End Np.

(** ** The program *)

Section Program.

Import Py.

Variable score : Type.
(** [s <= t] and [s >= t] on scores, as the array comparison computes them *)
Variable score_le score_ge : score -> score -> bool.

(** A residue is the list of the B-factors of its atoms, a model the list
    of its residues. *)
Definition residue : Type := list score.
Definition pdb_model : Type := list residue.

Definition getpLDDTsFromAlphaFoldPDBModel (m : pdb_model) : result (list score) :=
  comprehension (fun r => next r) m.

Definition getpLDDTsSubSequenceFromAlphaFoldPDBModel
    (m : pdb_model) (startRes endRes : option Z) : result (list score) :=
  match endRes, startRes with
  | None, None => getpLDDTsFromAlphaFoldPDBModel m
  | _, _ =>
      _ <- assert (match startRes, endRes with Some _, Some _ => true | _, _ => false end)
             "Must provide BOTH of start res and end res if specified" ;;
      match startRes, endRes with
      | Some startRes, Some endRes =>
          _ <- assert (startRes <=? endRes)
                 "Start Residue number sub-sequence is greater than end residue number!" ;;
          let _AFSequenceLength := len m in
          _ <- assert (endRes - startRes <=? _AFSequenceLength)
                 "Residue Sub Selection larger than AlphaFold sequence!" ;;
          _ <- assert (endRes <=? _AFSequenceLength)
                 "Residue Sub Selection outside of AlphaFold Sequence!" ;;
          all <- getpLDDTsFromAlphaFoldPDBModel m ;;
          Ok (slice all (Some (startRes - 1)) (Some endRes))
      | _, _ => Raise TypeError (* [None <= n]; the first assertion excludes it *)
      end
  end.

(** The inner [while] of the stretch measurement:
    [while pLDDTIndices[_idx+1] == pLDDTIndices[_idx] + 1: _length += 1; _idx += 1] *)
Fixpoint while_stretch (fuel : nat) (pLDDTIndices : list Z) (_length _idx : Z)
    : result Z :=
  match fuel with
  | O => Diverge
  | S fuel' =>
      nxt <- getitem pLDDTIndices (_idx + 1) ;;
      cur <- getitem pLDDTIndices _idx ;;
      if nxt =? cur + 1
      then while_stretch fuel' pLDDTIndices (_length + 1) (_idx + 1)
      else Ok _length
  end.

Definition getConsecutivepLDDTFromThreshold
    (pLDDTs : list score) (pLDDTThreshold : score) (aboveThreshold : bool)
    : result (option (list Z) * option (list Z)) :=
  let pLDDTIndices :=
    if aboveThreshold
    then Np.argwhere (map (fun s => score_ge s pLDDTThreshold) pLDDTs)
    else Np.argwhere (map (fun s => score_le s pLDDTThreshold) pLDDTs) in
  if len pLDDTIndices =? 0 then Ok (None, None)
  else
    lastIndex <- getitem pLDDTIndices (-1) ;;
    let pLDDTIndices := Np.append pLDDTIndices lastIndex in
    diffs <- Np.sub (slice pLDDTIndices (Some 1) None)
                    (slice pLDDTIndices None (Some (-1))) ;;
    let consecutivepLDDTIndices := Np.adds (Np.where_ (Np.gt diffs 1)) 1 in
    let consecutivepLDDTIndices := Np.insert0 consecutivepLDDTIndices 0 in
    let consecutiveLens := Np.zeros (len consecutivepLDDTIndices) in
    consecutiveLens <-
      for_range (len consecutivepLDDTIndices)
        (fun i consecutiveLens =>
           _idx <- getitem consecutivepLDDTIndices i ;;
           _length <- while_stretch (length pLDDTIndices) pLDDTIndices 1 _idx ;;
           setitem consecutiveLens i _length)
        consecutiveLens ;;
    Ok (Some consecutivepLDDTIndices, Some consecutiveLens).

Definition getConsecutiveDisorderedFrompLDDTs
    (pLDDTs : list score) (pLDDTDisorderThreshold : score) :=
  getConsecutivepLDDTFromThreshold pLDDTs pLDDTDisorderThreshold false.

Definition getConsecutiveOrderedFrompLDDTs
    (pLDDTs : list score) (pLDDTOrderThreshold : score) :=
  getConsecutivepLDDTFromThreshold pLDDTs pLDDTOrderThreshold true.

Definition getDisorderedFractionFrompLDDTs
    (pLDDTs : list score) (pLDDTDisorderThreshold : score)
    (numberConsectuivelyDisorderThreshold : Z)
    : result (Q * option (list Z)) :=
  r <- getConsecutiveDisorderedFrompLDDTs pLDDTs pLDDTDisorderThreshold ;;
  match r with
  | (Some disorderedStretchesIndices, Some disorderedStretchesLengths) =>
      let disorderedLengthsFiltered :=
        Np.select disorderedStretchesLengths
          (Np.ge disorderedStretchesLengths numberConsectuivelyDisorderThreshold) in
      fraction <- truediv (sum disorderedLengthsFiltered) (len pLDDTs) ;;
      Ok (fraction, Some disorderedLengthsFiltered)
  | _ => Ok (0%Q, None)
  end.

(** The structure file is read by Bio.PDB, outside this development: the
    function is given the parsed first model. *)
Definition getDisorderedFractionFromPDB
    (m : pdb_model) (pLDDTDisorderThreshold : score)
    (numberConsectuivelyDisorderThreshold : Z) (startRes endRes : option Z)
    : result (Q * option (list Z)) :=
  pLDDTs <- getpLDDTsSubSequenceFromAlphaFoldPDBModel m startRes endRes ;;
  getDisorderedFractionFrompLDDTs pLDDTs pLDDTDisorderThreshold
    numberConsectuivelyDisorderThreshold.

End Program.

Arguments getpLDDTsFromAlphaFoldPDBModel {score} m.
Arguments getpLDDTsSubSequenceFromAlphaFoldPDBModel {score} m startRes endRes.
Arguments getConsecutivepLDDTFromThreshold {score} score_le score_ge
  pLDDTs pLDDTThreshold aboveThreshold.
Arguments getConsecutiveDisorderedFrompLDDTs {score} score_le score_ge
  pLDDTs pLDDTDisorderThreshold.
Arguments getConsecutiveOrderedFrompLDDTs {score} score_le score_ge
  pLDDTs pLDDTOrderThreshold.
Arguments getDisorderedFractionFrompLDDTs {score} score_le score_ge
  pLDDTs pLDDTDisorderThreshold numberConsectuivelyDisorderThreshold.
Arguments getDisorderedFractionFromPDB {score} score_le score_ge
  m pLDDTDisorderThreshold numberConsectuivelyDisorderThreshold startRes endRes.

(** ** What the specification calls things *)

Section Vocabulary.

Variable score : Type.
Variable score_le score_ge : score -> score -> bool.

(** The threshold predicate of a direction: [<=] for the disorder
    direction ([aboveThreshold = false]), [>=] for the order direction. *)
Definition satisfies (aboveThreshold : bool) (threshold s : score) : bool :=
  if aboveThreshold then score_ge s threshold else score_le s threshold.

(** The number of indices of the score sequence satisfying the predicate. *)
Definition count_satisfying (aboveThreshold : bool) (threshold : score)
    (scores : list score) : Z :=
  Py.len (filter (satisfies aboveThreshold threshold) scores).

(** selectIndices of the specification. *)
Definition selectIndices (scores : list score) (threshold : score)
    (aboveThreshold : bool) : list Z :=
  Np.argwhere (map (satisfies aboveThreshold threshold) scores).

End Vocabulary.

Arguments satisfies {score} score_le score_ge aboveThreshold threshold s.
Arguments count_satisfying {score} score_le score_ge aboveThreshold threshold scores.
Arguments selectIndices {score} score_le score_ge scores threshold aboveThreshold.

(** findRuns in the specification's words: a new run begins at the very
    first index and whenever the current index is not exactly one greater
    than the previous one; a run records its starting index and the count
    of indices absorbed.  [runs_after start n prev rest] continues the run
    that began at [start], has absorbed [n] indices and saw [prev] last. *)
Fixpoint runs_after (start n prev : Z) (indices : list Z) : list (Z * Z) :=
  match indices with
  | [] => [(start, n)]
  | i :: rest =>
      if i =? prev + 1 then runs_after start (n + 1) i rest
      else (start, n) :: runs_after i 1 i rest
  end.

Definition findRuns (indices : list Z) : list (Z * Z) :=
  match indices with
  | [] => []
  | i :: rest => runs_after i 1 i rest
  end.

(** Consecutive runs laid end to end from position [p]: where each of them
    begins. *)
Fixpoint laid_from (p : Z) (lens : list Z) : list Z :=
  match lens with
  | [] => []
  | n :: rest => p :: laid_from (p + n) rest
  end.

(** Auxiliary views of an ascending index list [a :: t], used to follow the
    vectorised computation. *)

(** adjacent differences [t0 - a, t1 - t0, ...] *)
Fixpoint adjacent (a : Z) (t : list Z) : list Z :=
  match t with
  | [] => []
  | b :: t' => (b - a) :: adjacent b t'
  end.

(** positions (counted from [p], the position of [a]) at which the next
    index does not continue the stretch *)
Fixpoint breaks (p a : Z) (t : list Z) : list Z :=
  match t with
  | [] => []
  | b :: t' => if b =? a + 1 then breaks (p + 1) b t' else (p + 1) :: breaks (p + 1) b t'
  end.

(** length of the stretch that begins at [a] *)
Fixpoint lead (a : Z) (t : list Z) : Z :=
  match t with
  | [] => 1
  | b :: t' => if b =? a + 1 then 1 + lead b t' else 1
  end.

(** lengths of the stretches that begin after the one containing [a] *)
Fixpoint later_leads (a : Z) (t : list Z) : list Z :=
  match t with
  | [] => []
  | b :: t' => if b =? a + 1 then later_leads b t' else lead b t' :: later_leads b t'
  end.

(** strictly ascending: [a < t0 < t1 < ...] *)
Fixpoint ascending (a : Z) (t : list Z) : Prop :=
  match t with
  | [] => True
  | b :: t' => a < b /\ ascending b t'
  end.

(** The run lengths a call of the run detection reports: none when it
    returns [(None, None)]. *)
Definition found_lengths (r : Py.result (option (list Z) * option (list Z)))
    : list Z :=
  match r with
  | Py.Ok (_, Some lens) => lens
  | _ => []
  end.

(** The lengths a report of the analysis carries: none when it carries
    [None]. *)
Definition reported_lengths (o : option (list Z)) : list Z :=
  match o with
  | Some lens => lens
  | None => []
  end.

(** A run is a pair (start, length).  [ends_before r r']: the run [r] is
    over when [r'] begins, so the two do not overlap; [apart r r']: at least
    one position lies between them. *)
Definition ends_before (r r' : Z * Z) : Prop := fst r + snd r <= fst r'.
Definition apart (r r' : Z * Z) : Prop := fst r + snd r < fst r'.

(** Two non-empty runs in order with at least [gap] positions between. *)
Definition run_before (gap : Z) (r r' : Z * Z) : Prop :=
  1 <= snd r /\ 1 <= snd r' /\ fst r + snd r + gap <= fst r'.

(** ** Vocabulary of the further properties *)

Section Blocks_of_scores.

Variable score : Type.
Variable score_le score_ge : score -> score -> bool.

(** Position [j] of the score sequence exists and its score satisfies the
    threshold predicate of the direction. *)
Definition satisfied_at (scores : list score) (threshold : score)
    (aboveThreshold : bool) (j : Z) : Prop :=
  0 <= j
  /\ exists s, nth_error scores (Z.to_nat j) = Some s
             /\ satisfies score_le score_ge aboveThreshold threshold s = true.

(** The run [(start, length)] is a maximal block of satisfying positions:
    every position in it satisfies, the position just before it and the
    position just after it do not (or do not exist). *)
Definition maximal_block (scores : list score) (threshold : score)
    (aboveThreshold : bool) (r : Z * Z) : Prop :=
  (forall j, fst r <= j < fst r + snd r ->
             satisfied_at scores threshold aboveThreshold j)
  /\ ~ satisfied_at scores threshold aboveThreshold (fst r - 1)
  /\ ~ satisfied_at scores threshold aboveThreshold (fst r + snd r).

End Blocks_of_scores.

Arguments satisfied_at {score} score_le score_ge scores threshold aboveThreshold j.
Arguments maximal_block {score} score_le score_ge scores threshold aboveThreshold r.

(** The run [(start, length)] contains position [j]. *)
Definition covers (r : Z * Z) (j : Z) : Prop := fst r <= j < fst r + snd r.

(** What a run of [c] residues contributes under the minimum length [m]. *)
Definition keep (m c : Z) : Z := if (m <=? c) && (1 <=? c) then c else 0.

(** The residues in runs of at least [m], read off the mask in one pass;
    [cur] residues of the run in progress have been seen. *)
Fixpoint kept_from (m cur : Z) (mask : list bool) : Z :=
  match mask with
  | [] => keep m cur
  | true :: rest => kept_from m (cur + 1) rest
  | false :: rest => keep m cur + kept_from m 0 rest
  end.

(** The lengths of the maximal blocks of [true] in a mask, in order, read
    off the mask in one pass; [cur] entries of the block in progress have
    been seen. *)
Fixpoint block_lengths_from (cur : Z) (mask : list bool) : list Z :=
  match mask with
  | [] => if 1 <=? cur then [cur] else []
  | true :: rest => block_lengths_from (cur + 1) rest
  | false :: rest =>
      if 1 <=? cur then cur :: block_lengths_from 0 rest
      else block_lengths_from 0 rest
  end.

Definition block_lengths (mask : list bool) : list Z := block_lengths_from 0 mask.

(** The zero-based slice [[lo, hi)]: the elements at positions
    [lo, lo + 1, ..., hi - 1]. *)
Definition zero_based_slice {A : Type} (l : list A) (lo hi : Z) : list A :=
  firstn (Z.to_nat (hi - lo)) (skipn (Z.to_nat lo) l).

(** The three range failures of the sub-sequence extractor, which the
    specification names RangeError: start after end, range exceeds sequence
    length, end beyond sequence. *)
Definition RangeError (e : Py.exn) : Prop :=
  e = Py.AssertionError
        "Start Residue number sub-sequence is greater than end residue number!"
  \/ e = Py.AssertionError "Residue Sub Selection larger than AlphaFold sequence!"
  \/ e = Py.AssertionError "Residue Sub Selection outside of AlphaFold Sequence!".

(** ** Facts about the primitives *)

Module PyFacts.
Import Py.

Lemma len_nonneg {A : Type} (l : list A) : 0 <= len l.
Proof. unfold len. lia. Qed.

Lemma len_cons {A : Type} (a : A) (l : list A) : len (a :: l) = len l + 1.
Proof. unfold len. cbn [length]. lia. Qed.

Lemma len_app {A : Type} (l1 l2 : list A) : len (l1 ++ l2) = len l1 + len l2.
Proof. unfold len. rewrite length_app. lia. Qed.

Lemma len_nil {A : Type} : len (@nil A) = 0.
Proof. reflexivity. Qed.

(** Reading at an offset behind a prefix. *)
Lemma getitem_app_r {A : Type} (pre l : list A) (k : Z) :
  0 <= k -> getitem (pre ++ l) (len pre + k) = getitem l k.
Proof.
  intros Hk. unfold getitem.
  assert (Hp := len_nonneg pre).
  destruct (len pre + k <? 0) eqn:E1; [apply Z.ltb_lt in E1; lia|].
  destruct (k <? 0) eqn:E2; [apply Z.ltb_lt in E2; lia|].
  rewrite len_app.
  replace (0 <=? len pre + k) with true by (symmetry; apply Z.leb_le; lia).
  replace (0 <=? k) with true by (symmetry; apply Z.leb_le; lia).
  cbn [andb].
  replace (len pre + k <? len pre + len l) with (k <? len l).
  2:{ destruct (k <? len l) eqn:E3; symmetry.
      - apply Z.ltb_lt in E3. apply Z.ltb_lt. lia.
      - apply Z.ltb_ge in E3. apply Z.ltb_ge. lia. }
  destruct (k <? len l); [|reflexivity].
  replace (Z.to_nat (len pre + k)) with (length pre + Z.to_nat k)%nat
    by (unfold len; lia).
  rewrite nth_error_app2 by lia.
  replace (length pre + Z.to_nat k - length pre)%nat with (Z.to_nat k) by lia.
  reflexivity.
Qed.

Lemma getitem_head {A : Type} (a : A) (l : list A) : getitem (a :: l) 0 = Ok a.
Proof.
  unfold getitem. cbn [Z.ltb Z.compare Z.leb andb].
  rewrite len_cons. assert (H := len_nonneg l).
  replace (0 <? len l + 1) with true by (symmetry; apply Z.ltb_lt; lia).
  reflexivity.
Qed.

Lemma getitem_second {A : Type} (a b : A) (l : list A) :
  getitem (a :: b :: l) 1 = Ok b.
Proof.
  unfold getitem. cbn [Z.ltb Z.compare Z.leb andb].
  rewrite !len_cons. assert (H := len_nonneg l).
  replace (1 <? len l + 1 + 1) with true by (symmetry; apply Z.ltb_lt; lia).
  reflexivity.
Qed.

Lemma getitem_at {A : Type} (pre : list A) (a : A) (l : list A) :
  getitem (pre ++ a :: l) (len pre) = Ok a.
Proof.
  replace (len pre) with (len pre + 0) at 1 by lia.
  rewrite getitem_app_r by lia. apply getitem_head.
Qed.

Lemma getitem_next {A : Type} (pre : list A) (a b : A) (l : list A) :
  getitem (pre ++ a :: b :: l) (len pre + 1) = Ok b.
Proof. rewrite getitem_app_r by lia. apply getitem_second. Qed.

(** [l[-1]] of a non-empty array is its last element. *)
Lemma getitem_last (a : Z) (t : list Z) :
  getitem (a :: t) (-1) = Ok (last t a).
Proof.
  change (a :: t) with ([] ++ a :: t) at 1.
  destruct (exists_last (l := a :: t)) as (l' & z & E); [discriminate|].
  assert (Hz : last t a = z).
  { change (last t a) with (last (a :: t) a) at 1 || idtac.
    transitivity (last (a :: t) a).
    - destruct t; reflexivity.
    - rewrite E. apply last_last. }
  rewrite Hz. cbn [app]. rewrite E.
  unfold getitem. cbn [Z.ltb Z.compare].
  rewrite len_app. change (len [z]) with 1.
  assert (H := len_nonneg l').
  replace (0 <=? -1 + (len l' + 1)) with true by (symmetry; apply Z.leb_le; lia).
  replace (-1 + (len l' + 1) <? len l' + 1) with true by (symmetry; apply Z.ltb_lt; lia).
  cbn [andb].
  replace (Z.to_nat (-1 + (len l' + 1))) with (length l' + 0)%nat by (unfold len; lia).
  rewrite nth_error_app2 by lia.
  replace (length l' + 0 - length l')%nat with 0%nat by lia. reflexivity.
Qed.

Lemma setitem_app_r (pre post : list Z) (x v : Z) :
  setitem (pre ++ x :: post) (len pre) v = Ok (pre ++ v :: post).
Proof.
  unfold setitem. assert (H := len_nonneg pre). assert (H' := len_nonneg post).
  destruct (len pre <? 0) eqn:E; [apply Z.ltb_lt in E; lia|].
  rewrite len_app, len_cons.
  replace (0 <=? len pre) with true by (symmetry; apply Z.leb_le; lia).
  replace (len pre <? len pre + (len post + 1)) with true
    by (symmetry; apply Z.ltb_lt; lia).
  cbn [andb]. f_equal.
  replace (Z.to_nat (len pre)) with (length pre) by (unfold len; lia).
  clear. induction pre as [|p pre IH]; cbn; [reflexivity|]. now rewrite IH.
Qed.

Lemma slice_tail {A : Type} (a : A) (l : list A) :
  slice (a :: l) (Some 1) None = l.
Proof.
  unfold slice, clamp. cbn [Z.ltb Z.compare].
  rewrite len_cons. assert (H := len_nonneg l).
  rewrite Z.min_l by lia. cbn [Z.to_nat Pos.to_nat Pos.iter_op Nat.add skipn].
  replace (Z.to_nat (len l + 1 - 1)) with (length l) by (unfold len; lia).
  apply firstn_all.
Qed.

Lemma slice_front {A : Type} (l : list A) (z : A) :
  slice (l ++ [z]) None (Some (-1)) = l.
Proof.
  unfold slice, clamp. cbn [Z.ltb Z.compare].
  rewrite len_app. change (len [z]) with 1. assert (H := len_nonneg l).
  rewrite Z.max_r by lia. cbn [Z.to_nat skipn].
  replace (Z.to_nat (-1 + (len l + 1) - 0)) with (length l + 0)%nat by (unfold len; lia).
  rewrite firstn_app_2. cbn [firstn]. apply app_nil_r.
Qed.

Lemma sum_cons (x : Z) (l : list Z) : sum (x :: l) = x + sum l.
Proof.
  unfold sum. cbn [fold_left].
  enough (G : forall acc, fold_left Z.add l acc = acc + fold_left Z.add l 0)
    by (rewrite G; lia).
  induction l as [|y l IH]; intros acc; cbn [fold_left]; [lia|].
  rewrite IH, (IH (0 + y)). lia.
Qed.

Lemma sum_nil : sum [] = 0.
Proof. reflexivity. Qed.

End PyFacts.

(** ** The vectorised stretch detection, step by step *)

Module Stretch.
Import Py PyFacts.

Lemma last_cons_default (a b : Z) (t : list Z) : last (b :: t) a = last t b.
Proof.
  revert a b. induction t as [|c t IH]; intros a b; [reflexivity|].
  change (last (b :: c :: t) a) with (last (c :: t) a).
  now rewrite !IH.
Qed.

(** [pLDDTIndices[1:] - pLDDTIndices[:-1]] are the adjacent differences. *)
Lemma sub_adjacent (t : list Z) (a z : Z) :
  Np.sub (t ++ [z]) (a :: t) = Ok (adjacent a (t ++ [z])).
Proof.
  unfold Np.sub.
  replace (len (t ++ [z]) =? len (a :: t)) with true
    by (symmetry; apply Z.eqb_eq; unfold len; rewrite length_app; cbn [length]; lia).
  f_equal.
  revert a. induction t as [|b t IH]; intros a; [reflexivity|].
  cbn [app combine map adjacent fst snd]. now rewrite IH.
Qed.

(** [np.where(diffs > 1)[0] + 1], counted from position [p]. *)
Lemma where_breaks (t : list Z) (a p : Z) :
  ascending a t ->
  Np.adds (Np.argwhere_from p (Np.gt (adjacent a (t ++ [last t a])) 1)) 1
  = breaks p a t.
Proof.
  revert a p. induction t as [|b t IH]; intros a p Hasc.
  - cbn. rewrite Z.sub_diag. reflexivity.
  - destruct Hasc as [Hab Hasc].
    rewrite last_cons_default.
    cbn [app adjacent Np.gt map Np.argwhere_from breaks].
    specialize (IH b (p + 1) Hasc). unfold Np.gt in IH.
    destruct (b =? a + 1) eqn:E.
    + apply Z.eqb_eq in E.
      replace (1 <? b - a) with false by (symmetry; apply Z.ltb_ge; lia).
      exact IH.
    + apply Z.eqb_neq in E.
      replace (1 <? b - a) with true by (symmetry; apply Z.ltb_lt; lia).
      cbn [Np.adds map]. f_equal. exact IH.
Qed.

(** The [while] started at the position of [a] counts the stretch that
    begins there; the duplicated last index stops it before the end. *)
Lemma while_lead (t : list Z) :
  forall (a : Z) (pre : list Z) (n : Z) (fuel : nat),
    (length t < fuel)%nat ->
    while_stretch fuel (pre ++ a :: t ++ [last t a]) n (len pre)
    = Ok (n - 1 + lead a t).
Proof.
  induction t as [|b t IH]; intros a pre n fuel Hfuel.
  - destruct fuel as [|fuel]; [cbn in Hfuel; lia|].
    cbn [while_stretch app last lead].
    rewrite getitem_next, getitem_at. cbn [bind].
    replace (a =? a + 1) with false by (symmetry; apply Z.eqb_neq; lia).
    f_equal. lia.
  - destruct fuel as [|fuel]; [cbn in Hfuel; lia|].
    cbn [length] in Hfuel.
    rewrite last_cons_default.
    cbn [while_stretch app lead].
    rewrite getitem_next, getitem_at. cbn [bind].
    destruct (b =? a + 1) eqn:E.
    + replace (pre ++ a :: b :: t ++ [last t b])
        with ((pre ++ [a]) ++ b :: t ++ [last t b])
        by (rewrite <- app_assoc; reflexivity).
      replace (len pre + 1) with (len (pre ++ [a]))
        by (rewrite len_app; reflexivity).
      rewrite IH by lia. f_equal. lia.
    + f_equal. lia.
Qed.

(** Measuring at every later break gives the lengths of the later
    stretches. *)
Lemma comprehension_later (t : list Z) :
  forall (a : Z) (pre : list Z) (fuel : nat),
    (length t < fuel)%nat ->
    comprehension
      (fun _idx => while_stretch fuel (pre ++ a :: t ++ [last t a]) 1 _idx)
      (breaks (len pre) a t)
    = Ok (later_leads a t).
Proof.
  induction t as [|b t IH]; intros a pre fuel Hfuel; [reflexivity|].
  cbn [length] in Hfuel.
  rewrite last_cons_default.
  assert (Hre : pre ++ a :: (b :: t) ++ [last t b]
                = (pre ++ [a]) ++ b :: t ++ [last t b])
    by (rewrite <- app_assoc; reflexivity).
  assert (Hlen : len pre + 1 = len (pre ++ [a]))
    by (rewrite len_app; reflexivity).
  cbn [breaks later_leads].
  destruct (b =? a + 1) eqn:E.
  - rewrite Hre, Hlen. apply IH. lia.
  - cbn [comprehension]. rewrite Hre, Hlen.
    rewrite while_lead by lia. cbn [bind].
    rewrite IH by lia. reflexivity.
Qed.

(** The [for] loop that fills [consecutiveLens] slot by slot computes the
    same list as measuring every start in turn. *)
Lemma for_fill (g : Z -> result Z) (rest : list Z) :
  forall (done filled vs : list Z),
    length filled = length done ->
    comprehension g rest = Ok vs ->
    for_range_from (len done) (length rest)
      (fun i acc =>
         x <- getitem (done ++ rest) i ;;
         v <- g x ;;
         setitem acc i v)
      (filled ++ repeat 0 (length rest))
    = Ok (filled ++ vs).
Proof.
  induction rest as [|x rest IH]; intros done filled vs Hlen Hvs.
  - cbn in Hvs. injection Hvs as <-. reflexivity.
  - cbn [comprehension] in Hvs.
    destruct (g x) as [v| |] eqn:Hg; cbn [bind] in Hvs; try discriminate.
    destruct (comprehension g rest) as [vs'| |] eqn:Hc; cbn [bind] in Hvs;
      try discriminate.
    injection Hvs as <-.
    cbn [length for_range_from repeat].
    rewrite getitem_at. cbn [bind].
    rewrite Hg. cbn [bind].
    replace (len done) with (len filled) at 1 by (unfold len; lia).
    rewrite setitem_app_r. cbn [bind].
    replace (done ++ x :: rest) with ((done ++ [x]) ++ rest)
      by (rewrite <- app_assoc; reflexivity).
    replace (len done + 1) with (len (done ++ [x]))
      by (rewrite len_app; reflexivity).
    replace (filled ++ v :: repeat 0 (length rest))
      with ((filled ++ [v]) ++ repeat 0 (length rest))
      by (rewrite <- app_assoc; reflexivity).
    rewrite (IH (done ++ [x]) (filled ++ [v]) vs').
    + rewrite <- app_assoc. reflexivity.
    + rewrite !length_app. cbn. lia.
    + reflexivity.
Qed.

(** The run lengths of the specification's findRuns, in terms of the
    stretch lengths. *)
Lemma runs_after_lens (t : list Z) :
  forall s n a,
    map snd (runs_after s n a t) = (n - 1 + lead a t) :: later_leads a t.
Proof.
  induction t as [|b t IH]; intros s n a; cbn [runs_after lead later_leads].
  - cbn. f_equal. lia.
  - destruct (b =? a + 1).
    + rewrite IH. f_equal. lia.
    + cbn [map snd]. rewrite IH. f_equal. lia.
Qed.

(** The breaks are where the runs begin when laid end to end. *)
Lemma laid_breaks (t : list Z) :
  forall s n a p,
    laid_from (p + 1 - n) (map snd (runs_after s n a t))
    = (p + 1 - n) :: breaks p a t.
Proof.
  induction t as [|b t IH]; intros s n a p; cbn [runs_after breaks].
  - reflexivity.
  - destruct (b =? a + 1).
    + replace (p + 1 - n) with (p + 1 + 1 - (n + 1)) by lia. apply IH.
    + cbn [map snd laid_from]. f_equal.
      replace (p + 1 - n + n) with (p + 1 + 1 - 1) by lia.
      rewrite IH. f_equal. lia.
Qed.

Lemma runs_after_fst (t : list Z) :
  forall s n a,
    map fst (runs_after s n a t) = s :: map fst (tl (runs_after s n a t)).
Proof.
  induction t as [|b t IH]; intros s n a; cbn [runs_after]; [reflexivity|].
  destruct (b =? a + 1); [apply IH | reflexivity].
Qed.

(** Reading the selected indices at the breaks gives the residue at which
    each later run begins. *)
Lemma getitem_breaks (t : list Z) :
  forall s n a pre,
    map (getitem (pre ++ a :: t)) (breaks (len pre) a t)
    = map (@Ok Z) (map fst (tl (runs_after s n a t))).
Proof.
  induction t as [|b t IH]; intros s n a pre; cbn [runs_after breaks].
  - reflexivity.
  - assert (Hre : pre ++ a :: b :: t = (pre ++ [a]) ++ b :: t)
      by (rewrite <- app_assoc; reflexivity).
    assert (Hlen : len pre + 1 = len (pre ++ [a]))
      by (rewrite len_app; reflexivity).
    destruct (b =? a + 1).
    + rewrite Hre, Hlen. apply IH.
    + cbn [tl map]. rewrite Hre, Hlen.
      rewrite getitem_at.
      rewrite (IH b 1 b), (runs_after_fst t b 1 b). reflexivity.
Qed.

End Stretch.

(** ** Run detection refines the specification's findRuns *)

Section Detection.
Import Py PyFacts Stretch.

Context {score : Type} (score_le score_ge : score -> score -> bool).

Local Abbreviation detect := (getConsecutivepLDDTFromThreshold score_le score_ge).
Local Abbreviation select := (selectIndices score_le score_ge).

Lemma argwhere_from_lower (mask : list bool) :
  forall i, Forall (fun x => i <= x) (Np.argwhere_from i mask).
Proof.
  induction mask as [|b mask IH]; intros i; cbn [Np.argwhere_from]; [constructor|].
  assert (H : Forall (fun x => i <= x) (Np.argwhere_from (i + 1) mask)).
  { eapply Forall_impl; [|apply IH]. cbn. intros; lia. }
  destruct b; [constructor; [lia | exact H] | exact H].
Qed.

Lemma argwhere_from_ascending (mask : list bool) :
  forall i a t, Np.argwhere_from i mask = a :: t -> ascending a t.
Proof.
  induction mask as [|b mask IH]; intros i a t E; cbn [Np.argwhere_from] in E;
    [discriminate|].
  destruct b; [|eapply IH; exact E].
  injection E as <- E.
  destruct t as [|c t]; [exact I|]. split.
  - pose proof (argwhere_from_lower mask (i + 1)) as H.
    rewrite E in H. inversion H; subst. lia.
  - eapply IH; exact E.
Qed.

Lemma argwhere_from_len (mask : list bool) :
  forall i, len (Np.argwhere_from i mask) = len (filter (fun b => b) mask).
Proof.
  induction mask as [|b mask IH]; intros i; cbn [Np.argwhere_from filter];
    [reflexivity|].
  destruct b; [rewrite !len_cons|]; now rewrite IH.
Qed.

Lemma select_len (scores : list score) (T : score) (above : bool) :
  len (select scores T above) = count_satisfying score_le score_ge above T scores.
Proof.
  unfold selectIndices, count_satisfying, Np.argwhere.
  rewrite argwhere_from_len. unfold len. f_equal.
  induction scores as [|s scores IH]; [reflexivity|].
  cbn [map filter]. destruct (satisfies _ _ _ _ s); cbn [length]; now rewrite IH.
Qed.

(** The code's first step is selectIndices. *)
Lemma detect_selects (pLDDTs : list score) (T : score) (above : bool) :
  (if above
   then Np.argwhere (map (fun s => score_ge s T) pLDDTs)
   else Np.argwhere (map (fun s => score_le s T) pLDDTs))
  = select pLDDTs T above.
Proof. destruct above; reflexivity. Qed.

(** No satisfying index: the pair [(None, None)]. *)
Lemma detect_none (pLDDTs : list score) (T : score) (above : bool) :
  select pLDDTs T above = [] ->
  detect pLDDTs T above = Ok (None, None).
Proof.
  intros E. unfold getConsecutivepLDDTFromThreshold.
  rewrite detect_selects, E. reflexivity.
Qed.

(** Some satisfying index: the lengths are those of findRuns over the
    selected indices, and the returned starts are where these runs begin
    when laid end to end, that is, positions in the list of selected
    indices. *)
Lemma detect_some (pLDDTs : list score) (T : score) (above : bool) (a : Z) (t : list Z) :
  select pLDDTs T above = a :: t ->
  detect pLDDTs T above
  = Ok (Some (laid_from 0 (map snd (findRuns (a :: t)))),
        Some (map snd (findRuns (a :: t)))).
Proof.
  intros E.
  assert (Hasc : ascending a t)
    by (eapply argwhere_from_ascending; exact E).
  unfold getConsecutivepLDDTFromThreshold.
  rewrite detect_selects, E.
  replace (len (a :: t) =? 0) with false
    by (symmetry; apply Z.eqb_neq; rewrite len_cons; pose proof (len_nonneg t); lia).
  rewrite getitem_last. cbn [bind]. unfold Np.append.
  change ((a :: t) ++ [last t a]) with (a :: t ++ [last t a]).
  rewrite slice_tail.
  change (a :: t ++ [last t a]) with ((a :: t) ++ [last t a]) at 1.
  rewrite slice_front.
  rewrite sub_adjacent. cbn [bind].
  unfold Np.where_, Np.argwhere, Np.insert0.
  rewrite (where_breaks t a 0 Hasc).
  unfold for_range, Np.zeros.
  replace (Z.to_nat (len (0 :: breaks 0 a t))) with (length (0 :: breaks 0 a t))
    by (unfold len; lia).
  pose proof (for_fill
    (fun _idx => while_stretch (length (a :: t ++ [last t a]))
                   (a :: t ++ [last t a]) 1 _idx)
    (0 :: breaks 0 a t) [] [] (lead a t :: later_leads a t) eq_refl) as Hfor.
  cbn [app] in Hfor. change (len []) with 0 in Hfor.
  rewrite Hfor.
  - cbn [bind findRuns].
    rewrite runs_after_lens.
    replace (1 - 1 + lead a t) with (lead a t) by lia.
    pose proof (laid_breaks t a 1 a 0) as Hlaid.
    rewrite runs_after_lens in Hlaid.
    replace (1 - 1 + lead a t) with (lead a t) in Hlaid by lia.
    cbn [Z.add Z.sub Z.opp Z.pos_sub] in Hlaid.
    rewrite Hlaid. reflexivity.
  - cbn [comprehension].
    pose proof (while_lead t a [] 1 (length (a :: t ++ [last t a]))) as Hw.
    cbn [app] in Hw. change (len []) with 0 in Hw.
    rewrite Hw by (cbn [length]; rewrite length_app; cbn; lia).
    cbn [bind].
    pose proof (comprehension_later t a [] (length (a :: t ++ [last t a]))) as Hc.
    cbn [app] in Hc. change (len []) with 0 in Hc.
    rewrite Hc by (cbn [length]; rewrite length_app; cbn; lia).
    reflexivity.
Qed.

End Detection.

(** ** Shape of the runs *)

Module Runs.
Import Py PyFacts Stretch.

Lemma runs_after_sum (t : list Z) :
  forall s n a, sum (map snd (runs_after s n a t)) = n + len t.
Proof.
  induction t as [|b t IH]; intros s n a; cbn [runs_after].
  - cbn. lia.
  - rewrite len_cons. destruct (b =? a + 1).
    + rewrite IH. lia.
    + cbn [map snd]. rewrite sum_cons, IH. lia.
Qed.

Lemma findRuns_sum (l : list Z) : sum (map snd (findRuns l)) = len l.
Proof.
  destruct l as [|a t]; [reflexivity|].
  cbn [findRuns]. rewrite runs_after_sum, len_cons. lia.
Qed.

Lemma runs_after_positive (t : list Z) :
  forall s n a, 1 <= n -> Forall (fun r => 1 <= snd r) (runs_after s n a t).
Proof.
  induction t as [|b t IH]; intros s n a Hn; cbn [runs_after].
  - constructor; [exact Hn | constructor].
  - destruct (b =? a + 1).
    + apply IH. lia.
    + constructor; [exact Hn | apply IH; lia].
Qed.

Lemma findRuns_positive (l : list Z) : Forall (fun n => 1 <= n) (map snd (findRuns l)).
Proof.
  apply Forall_map. destruct l as [|a t]; [constructor|].
  apply runs_after_positive. lia.
Qed.

Lemma runs_after_shape (t : list Z) :
  forall s n a, exists k rest, runs_after s n a t = (s, k) :: rest /\ n <= k.
Proof.
  induction t as [|b t IH]; intros s n a; cbn [runs_after].
  - exists n, []. split; [reflexivity | lia].
  - destruct (b =? a + 1).
    + destruct (IH s (n + 1) b) as (k & rest & E & Hk).
      exists k, rest. split; [exact E | lia].
    + exists n, (runs_after b 1 b t). split; [reflexivity | lia].
Qed.

(** In residue coordinates consecutive runs leave a gap. *)
Lemma runs_after_sorted (t : list Z) :
  forall s n a,
    ascending a t -> s + n = a + 1 -> 1 <= n ->
    Sorted (run_before 1) (runs_after s n a t).
Proof.
  induction t as [|b t IH]; intros s n a Hasc Hcover Hn; cbn [runs_after].
  - repeat constructor.
  - destruct Hasc as [Hab Hasc].
    destruct (b =? a + 1) eqn:E.
    + apply Z.eqb_eq in E. apply IH; [exact Hasc | lia | lia].
    + apply Z.eqb_neq in E. constructor.
      * apply IH; [exact Hasc | lia | lia].
      * destruct (runs_after_shape t b 1 b) as (k & rest & -> & Hk).
        constructor. unfold run_before. cbn [fst snd]. lia.
Qed.

(** Laid end to end, consecutive non-empty runs abut. *)
Lemma laid_sorted (lens : list Z) :
  forall p,
    Forall (fun n => 1 <= n) lens ->
    Sorted (run_before 0) (combine (laid_from p lens) lens).
Proof.
  induction lens as [|n lens IH]; intros p Hpos; cbn [laid_from combine].
  - constructor.
  - inversion Hpos as [|? ? Hn Hrest]; subst. constructor.
    + apply IH. exact Hrest.
    + destruct lens as [|n' lens]; cbn [laid_from combine]; constructor.
      inversion Hrest; subst. unfold run_before. cbn [fst snd]. lia.
Qed.

Lemma laid_bounded (bound : Z) (lens : list Z) :
  forall p,
    0 <= p -> Forall (fun n => 1 <= n) lens -> p + sum lens <= bound ->
    Forall (fun n => 1 <= n <= bound) lens
    /\ Forall (fun q => 0 <= q < bound) (laid_from p lens).
Proof.
  induction lens as [|n lens IH]; intros p Hp Hpos Hb; cbn [laid_from].
  - split; constructor.
  - inversion Hpos as [|? ? Hn Hrest]; subst. rewrite sum_cons in Hb.
    assert (H0 : 0 <= sum lens).
    { clear - Hrest. induction Hrest as [|m l Hm _ IHl]; [cbn; lia|].
      rewrite sum_cons. lia. }
    destruct (IH (p + n) ltac:(lia) Hrest ltac:(lia)) as [IH1 IH2].
    split; constructor; try assumption; lia.
Qed.

Lemma laid_length (lens : list Z) :
  forall p, length (laid_from p lens) = length lens.
Proof.
  induction lens as [|n lens IH]; intros p; cbn [laid_from length];
    [reflexivity | now rewrite IH].
Qed.

Lemma run_before_trans (gap : Z) :
  0 <= gap -> Relations_1.Transitive (run_before gap).
Proof.
  intros Hgap x y z (Hx & Hy & Hxy) (_ & Hz & Hyz).
  unfold run_before. lia.
Qed.

Lemma StronglySorted_map {A B : Type} (R : A -> A -> Prop) (R' : B -> B -> Prop)
    (f : A -> B) (l : list A) :
  (forall x y, R x y -> R' (f x) (f y)) ->
  StronglySorted R l -> StronglySorted R' (map f l).
Proof.
  intros Hf Hs. induction Hs as [|x l Hs IH Hall]; cbn [map]; constructor.
  - exact IH.
  - apply Forall_map. eapply Forall_impl; [|exact Hall]. intros y. apply Hf.
Qed.

(** Sorted non-empty runs: pairwise in order, starts strictly increasing. *)
Lemma runs_pairwise (gap : Z) (runs : list (Z * Z)) :
  0 <= gap ->
  Sorted (run_before gap) runs ->
  StronglySorted (fun r r' => fst r + snd r + gap <= fst r') runs
  /\ StronglySorted Z.lt (map fst runs).
Proof.
  intros Hgap Hs.
  apply (Sorted_StronglySorted (run_before_trans gap Hgap)) in Hs.
  split.
  - rewrite <- (map_id runs).
    eapply StronglySorted_map; [|exact Hs].
    intros x y (_ & _ & H). exact H.
  - eapply StronglySorted_map; [|exact Hs].
    intros x y (Hx & _ & H). lia.
Qed.

Lemma combine_fst_snd {A B : Type} (l : list (A * B)) :
  combine (map fst l) (map snd l) = l.
Proof.
  induction l as [|[a b] l IH]; cbn; [reflexivity | now rewrite IH].
Qed.

Lemma map_fst_combine {A B : Type} (l : list A) (l' : list B) :
  length l = length l' -> map fst (combine l l') = l.
Proof.
  revert l'. induction l as [|a l IH]; intros [|b l'] H; cbn in *;
    try reflexivity; try discriminate.
  f_equal. apply IH. lia.
Qed.

End Runs.

(** ** The analysis *)

Section Analysis.
Import Py PyFacts Stretch Runs.

Context {score : Type} (score_le score_ge : score -> score -> bool).

Local Abbreviation detect := (getConsecutivepLDDTFromThreshold score_le score_ge).
Local Abbreviation select := (selectIndices score_le score_ge).
Local Abbreviation count := (count_satisfying score_le score_ge).
Local Abbreviation analyze := (getDisorderedFractionFrompLDDTs score_le score_ge).

(** The lengths found are those of findRuns over the selected indices. *)
Lemma found_lengths_findRuns (S : list score) (T : score) (above : bool) :
  found_lengths (detect S T above) = map snd (findRuns (select S T above)).
Proof.
  destruct (select S T above) as [|a t] eqn:E.
  - rewrite (detect_none _ _ _ _ _ E). reflexivity.
  - rewrite (detect_some _ _ _ _ _ _ _ E). reflexivity.
Qed.

Lemma count_le_len (S : list score) (T : score) (above : bool) :
  0 <= count above T S <= len S.
Proof.
  unfold count_satisfying, len.
  pose proof (filter_length_le (satisfies score_le score_ge above T) S). lia.
Qed.

Lemma select_nil_count (S : list score) (T : score) (above : bool) :
  select S T above = [] <-> count above T S = 0.
Proof.
  rewrite <- select_len. split.
  - intros ->. reflexivity.
  - destruct (select S T above); [reflexivity|].
    rewrite len_cons. pose proof (len_nonneg l). lia.
Qed.

(** [a[a >= m]] keeps the entries that are at least [m]. *)
Lemma select_ge_filter (lens : list Z) (m : Z) :
  Np.select lens (Np.ge lens m) = filter (fun n => m <=? n) lens.
Proof.
  unfold Np.ge. induction lens as [|n lens IH]; [reflexivity|].
  cbn [map Np.select filter]. destruct (m <=? n); now rewrite IH.
Qed.

Lemma sum_filter_bounds (f : Z -> bool) (lens : list Z) :
  Forall (fun n => 1 <= n) lens ->
  0 <= sum (filter f lens) <= sum lens.
Proof.
  induction 1 as [|n lens Hn _ IH]; [cbn; lia|].
  cbn [filter]. destruct (f n); rewrite ?sum_cons; lia.
Qed.

Lemma filter_all (f : Z -> bool) (lens : list Z) :
  Forall (fun n => f n = true) lens -> filter f lens = lens.
Proof.
  induction 1 as [|n lens Hn _ IH]; [reflexivity|].
  cbn [filter]. now rewrite Hn, IH.
Qed.

Lemma filter_none (f : Z -> bool) (lens : list Z) :
  Forall (fun n => f n = false) lens -> filter f lens = [].
Proof.
  induction 1 as [|n lens Hn _ IH]; [reflexivity|].
  cbn [filter]. now rewrite Hn, IH.
Qed.

Lemma ratio_bounds (k n : Z) :
  0 <= k <= n -> 0 < n -> (0 <= inject_Z k / inject_Z n <= 1)%Q.
Proof.
  intros Hk Hn. destruct n as [|n|n]; try lia.
  unfold Qle, Qdiv, Qmult, Qinv, inject_Z. cbn. lia.
Qed.

(** No satisfying index: the analysis returns [(0, None)]. *)
Lemma analyze_none (S : list score) (T : score) (m : Z) :
  select S T false = [] -> analyze S T m = Ok (0%Q, None).
Proof.
  intros E. unfold getDisorderedFractionFrompLDDTs, getConsecutiveDisorderedFrompLDDTs.
  rewrite (detect_none _ _ _ _ _ E). reflexivity.
Qed.

(** Some satisfying index: the analysis filters the found lengths and
    divides their sum by the number of scores. *)
Lemma analyze_some (S : list score) (T : score) (m : Z) (a : Z) (t : list Z) :
  select S T false = a :: t ->
  analyze S T m
  = Ok ((inject_Z (sum (filter (fun n => m <=? n) (found_lengths (detect S T false))))
         / inject_Z (len S))%Q,
        Some (filter (fun n => m <=? n) (found_lengths (detect S T false)))).
Proof.
  intros E. unfold getDisorderedFractionFrompLDDTs, getConsecutiveDisorderedFrompLDDTs.
  rewrite (detect_some _ _ _ _ _ _ _ E). cbn [bind found_lengths].
  rewrite select_ge_filter. unfold truediv.
  replace (len S =? 0) with false; [reflexivity|].
  symmetry. apply Z.eqb_neq.
  pose proof (count_le_len S T false) as Hc.
  rewrite <- select_len, E, len_cons in Hc. pose proof (len_nonneg t). lia.
Qed.

End Analysis.

(** ** The sub-sequence extractor *)

Section Extractor.
Import Py PyFacts.

Context {score : Type}.

Lemma comprehension_length {A B : Type} (f : A -> result B) (l : list A) :
  forall out, comprehension f l = Ok out -> length out = length l.
Proof.
  induction l as [|a l IH]; intros out E; cbn [comprehension] in E.
  - injection E as <-. reflexivity.
  - destruct (f a); cbn [bind] in E; try discriminate.
    destruct (comprehension f l); cbn [bind] in E; try discriminate.
    injection E as <-. cbn [length]. f_equal. now apply IH.
Qed.

(** Within the sequence and from a 1-based start, Python's slice is the
    zero-based slice. *)
Lemma slice_zero_based (all : list score) (s e : Z) :
  1 <= s -> s <= e -> e <= len all ->
  slice all (Some (s - 1)) (Some e) = zero_based_slice all (s - 1) e.
Proof.
  intros Hs Hse He. unfold slice, zero_based_slice, clamp.
  replace (s - 1 <? 0) with false by (symmetry; apply Z.ltb_ge; lia).
  replace (e <? 0) with false by (symmetry; apply Z.ltb_ge; lia).
  rewrite !Z.min_l by lia. reflexivity.
Qed.

End Extractor.

(** ** Properties of the run detection *)

Section DetectionClaims.
Import Py PyFacts Stretch Runs.

Context {score : Type} (score_le score_ge : score -> score -> bool).

Lemma StronglySorted_impl {A : Type} (R R' : A -> A -> Prop) (l : list A) :
  (forall x y, R x y -> R' x y) -> StronglySorted R l -> StronglySorted R' l.
Proof.
  intros H Hs. rewrite <- (map_id l).
  eapply StronglySorted_map; [exact H | exact Hs].
Qed.

(** The returned starts, read in the list of selected indices, are the
    residues at which the runs of findRuns begin. *)
Lemma starts_read_selected (a : Z) (t : list Z) :
  map (getitem (a :: t)) (laid_from 0 (map snd (findRuns (a :: t))))
  = map (@Ok Z) (map fst (findRuns (a :: t))).
Proof.
  cbn [findRuns].
  pose proof (laid_breaks t a 1 a 0) as Hlaid.
  cbn [Z.add Z.sub Z.opp Z.pos_sub] in Hlaid. rewrite Hlaid.
  cbn [map]. rewrite getitem_head.
  pose proof (getitem_breaks t a 1 a []) as Hget.
  cbn [app] in Hget. change (len []) with 0 in Hget. rewrite Hget.
  rewrite (runs_after_fst t a 1 a). reflexivity.
Qed.

(** C1: for every score sequence, threshold and direction the run detection
    returns, and the lengths of all the runs it found (none when it returns
    [(None, None)]) sum to the number of indices whose score satisfies the
    threshold predicate of the direction. *)
Theorem run_lengths_sum_to_satisfying_count
    (S : list score) (T : score) (above : bool) :
  exists starts lens,
    getConsecutivepLDDTFromThreshold score_le score_ge S T above = Ok (starts, lens)
    /\ sum (reported_lengths lens) = count_satisfying score_le score_ge above T S.
Proof.
  destruct (selectIndices score_le score_ge S T above) as [|a t] eqn:E.
  - exists None, None. split; [exact (detect_none _ _ _ _ _ E)|].
    cbn. symmetry. now apply select_nil_count.
  - eexists _, _. split; [exact (detect_some _ _ _ _ _ _ _ E)|].
    cbn [reported_lengths]. rewrite findRuns_sum, <- E. apply select_len.
Qed.

(** C2: whenever the run detection returns runs, there is one length per
    start, every length is at least 1, the starts are strictly increasing and
    the runs are pairwise non-overlapping.  This holds for the returned
    starts as they are (positions in the list of selected indices, where the
    runs abut), and for the residues these positions stand for (where at
    least one residue lies between two runs). *)
Theorem runs_nonempty_disjoint_ascending
    (S : list score) (T : score) (above : bool) (starts lens : list Z) :
  getConsecutivepLDDTFromThreshold score_le score_ge S T above
  = Ok (Some starts, Some lens) ->
  length starts = length lens
  /\ Forall (fun n => 1 <= n) lens
  /\ StronglySorted Z.lt starts
  /\ StronglySorted ends_before (combine starts lens)
  /\ exists firsts,
       map (getitem (selectIndices score_le score_ge S T above)) starts
       = map (@Ok Z) firsts
       /\ StronglySorted Z.lt firsts
       /\ StronglySorted apart (combine firsts lens).
Proof.
  intros Hd. destruct (selectIndices score_le score_ge S T above) as [|a t] eqn:E.
  - rewrite (detect_none _ _ _ _ _ E) in Hd. discriminate.
  - rewrite (detect_some _ _ _ _ _ _ _ E) in Hd.
    injection Hd as <- <-.
    assert (Hasc : ascending a t)
      by (eapply argwhere_from_ascending; exact E).
    pose proof (findRuns_positive (a :: t)) as Hpos.
    assert (Hlen : length (laid_from 0 (map snd (findRuns (a :: t))))
                   = length (map snd (findRuns (a :: t))))
      by apply laid_length.
    destruct (runs_pairwise 0 _ (Z.le_refl 0) (laid_sorted _ 0 Hpos)) as [Hpair Hinc].
    rewrite (map_fst_combine _ _ Hlen) in Hinc.
    assert (Hsorted : Sorted (run_before 1) (findRuns (a :: t)))
      by (apply runs_after_sorted; [exact Hasc | lia | lia]).
    destruct (runs_pairwise 1 _ ltac:(lia) Hsorted) as [Hpair' Hinc'].
    repeat split.
    + exact Hlen.
    + exact Hpos.
    + exact Hinc.
    + eapply StronglySorted_impl; [|exact Hpair].
      unfold ends_before. intros; lia.
    + exists (map fst (findRuns (a :: t))). repeat split.
      * apply starts_read_selected.
      * exact Hinc'.
      * rewrite combine_fst_snd.
        eapply StronglySorted_impl; [|exact Hpair'].
        unfold apart. intros; lia.
Qed.

(** Every integer the run detection returns is a position in, or a length
    within, the score sequence, so 64-bit integers hold it exactly. *)
Lemma stretch_values_bounded
    (S : list score) (T : score) (above : bool) (starts lens : list Z) :
  getConsecutivepLDDTFromThreshold score_le score_ge S T above
  = Ok (Some starts, Some lens) ->
  Forall (fun n => 1 <= n <= len S) lens
  /\ Forall (fun p => 0 <= p < len S) starts.
Proof.
  intros Hd. destruct (selectIndices score_le score_ge S T above) as [|a t] eqn:E.
  - rewrite (detect_none _ _ _ _ _ E) in Hd. discriminate.
  - rewrite (detect_some _ _ _ _ _ _ _ E) in Hd.
    injection Hd as <- <-.
    pose proof (findRuns_positive (a :: t)) as Hpos.
    pose proof (findRuns_sum (a :: t)) as Hsum.
    pose proof (count_le_len score_le score_ge S T above) as Hc.
    rewrite <- select_len, E in Hc.
    assert (Hbound : sum (map snd (findRuns (a :: t))) <= len S) by lia.
    apply (laid_bounded (len S) (map snd (findRuns (a :: t))) 0);
      [lia | exact Hpos | lia].
Qed.

End DetectionClaims.

(** ** Blocks of the mask and the runs found *)

Module Blocks.
Import Py PyFacts Stretch Runs.

(** the run lengths found over a mask *)
Local Abbreviation lens_of mask := (map snd (findRuns (Np.argwhere mask))).

Lemma argwhere_from_app (m1 m2 : list bool) :
  forall i,
    Np.argwhere_from i (m1 ++ m2)
    = Np.argwhere_from i m1 ++ Np.argwhere_from (i + len m1) m2.
Proof.
  induction m1 as [|b m1 IH]; intros i.
  - cbn [app Np.argwhere_from]. change (len []) with 0. now rewrite Z.add_0_r.
  - cbn [app Np.argwhere_from]. rewrite IH, len_cons.
    replace (i + 1 + len m1) with (i + (len m1 + 1)) by lia.
    destruct b; reflexivity.
Qed.

Lemma argwhere_from_upper (m : list bool) :
  forall i, Forall (fun x => x < i + len m) (Np.argwhere_from i m).
Proof.
  induction m as [|b m IH]; intros i; cbn [Np.argwhere_from]; [constructor|].
  rewrite len_cons. pose proof (len_nonneg m).
  assert (H' : Forall (fun x => x < i + (len m + 1)) (Np.argwhere_from (i + 1) m)).
  { eapply Forall_impl; [|apply IH]. cbn. intros; lia. }
  destruct b; [constructor; [lia | exact H'] | exact H'].
Qed.

Lemma argwhere_from_shift (m : list bool) :
  forall i d, Np.argwhere_from (i + d) m = map (Z.add d) (Np.argwhere_from i m).
Proof.
  induction m as [|b m IH]; intros i d; cbn [Np.argwhere_from map]; [reflexivity|].
  replace (i + d + 1) with (i + 1 + d) by lia. rewrite IH.
  destruct b; cbn [map]; [f_equal; lia | reflexivity].
Qed.

Lemma runs_after_shift (d : Z) (t : list Z) :
  forall s n a,
    map snd (runs_after (d + s) n (d + a) (map (Z.add d) t))
    = map snd (runs_after s n a t).
Proof.
  induction t as [|b t IH]; intros s n a; cbn [map runs_after]; [reflexivity|].
  replace (d + b =? d + a + 1) with (b =? a + 1).
  2:{ destruct (b =? a + 1) eqn:E; symmetry.
      - apply Z.eqb_eq in E. apply Z.eqb_eq. lia.
      - apply Z.eqb_neq in E. apply Z.eqb_neq. lia. }
  destruct (b =? a + 1); [apply IH|].
  cbn [map snd]. f_equal. apply IH.
Qed.

Lemma findRuns_shift (d : Z) (l : list Z) :
  map snd (findRuns (map (Z.add d) l)) = map snd (findRuns l).
Proof.
  destruct l as [|a t]; [reflexivity|]. cbn [map findRuns]. apply runs_after_shift.
Qed.

(** The lengths found do not depend on where the mask is placed. *)
Lemma lens_placed (m : list bool) (i : Z) :
  map snd (findRuns (Np.argwhere_from i m)) = lens_of m.
Proof.
  unfold Np.argwhere. replace i with (0 + i) by lia.
  rewrite argwhere_from_shift. apply findRuns_shift.
Qed.

Lemma runs_after_app (t1 : list Z) :
  forall s n a b t2,
    b <> last t1 a + 1 ->
    runs_after s n a (t1 ++ b :: t2) = runs_after s n a t1 ++ runs_after b 1 b t2.
Proof.
  induction t1 as [|c t1 IH]; intros s n a b t2 Hb.
  - cbn [app runs_after last] in *.
    replace (b =? a + 1) with false by (symmetry; apply Z.eqb_neq; exact Hb).
    reflexivity.
  - rewrite last_cons_default in Hb. cbn [app runs_after].
    destruct (c =? a + 1); rewrite (IH _ _ _ _ _ Hb); reflexivity.
Qed.

Lemma last_Forall (P : Z -> Prop) (t : list Z) :
  forall a, P a -> Forall P t -> P (last t a).
Proof.
  induction t as [|c t IH]; intros a Ha Ht; [exact Ha|].
  rewrite last_cons_default. inversion Ht; subst. now apply IH.
Qed.

(** Index lists on either side of a missing position are grouped
    independently. *)
Lemma findRuns_app (g : Z) (l1 l2 : list Z) :
  Forall (fun x => x < g) l1 -> Forall (fun x => g < x) l2 ->
  findRuns (l1 ++ l2) = findRuns l1 ++ findRuns l2.
Proof.
  intros H1 H2. destruct l1 as [|a t1]; [reflexivity|].
  destruct l2 as [|b t2]; [now rewrite !app_nil_r|].
  cbn [app findRuns]. apply runs_after_app.
  inversion H1; subst. inversion H2; subst.
  pose proof (last_Forall (fun x => x < g) t1 a ltac:(assumption) ltac:(assumption)).
  cbn beta in *. lia.
Qed.

(** A non-satisfying residue separates what is found on its two sides. *)
Lemma lens_split (m1 m2 : list bool) :
  lens_of (m1 ++ false :: m2) = lens_of m1 ++ lens_of m2.
Proof.
  unfold Np.argwhere. rewrite argwhere_from_app. cbn [Np.argwhere_from].
  rewrite (findRuns_app (0 + len m1)).
  - rewrite map_app. f_equal. apply lens_placed.
  - apply argwhere_from_upper.
  - eapply Forall_impl; [|apply argwhere_from_lower]. cbn. intros; lia.
Qed.

(** A block of satisfying residues is one run. *)
Lemma runs_after_block (m : list bool) :
  forall i s n,
    forallb (fun b => b) m = true ->
    runs_after s n (i - 1) (Np.argwhere_from i m) = [(s, n + len m)].
Proof.
  induction m as [|b m IH]; intros i s n Hall.
  - cbn. now rewrite Z.add_0_r.
  - cbn [forallb] in Hall. apply andb_prop in Hall as [-> Hall].
    cbn [Np.argwhere_from runs_after].
    replace (i =? i - 1 + 1) with true by (symmetry; apply Z.eqb_eq; lia).
    replace i with (i + 1 - 1) at 1 by lia.
    rewrite IH by exact Hall. rewrite len_cons. do 2 f_equal. lia.
Qed.

Lemma lens_block (m : list bool) :
  m <> [] -> forallb (fun b => b) m = true -> lens_of m = [len m].
Proof.
  intros Hne Hall. destruct m as [|b m]; [contradiction|].
  cbn [forallb] in Hall. apply andb_prop in Hall as [-> Hall].
  unfold Np.argwhere. cbn [Np.argwhere_from findRuns].
  pose proof (runs_after_block m (0 + 1) 0 1 Hall) as H.
  replace (0 + 1 - 1) with 0 in H by lia.
  rewrite H, len_cons. cbn [map snd]. f_equal. lia.
Qed.

Lemma lens_nil : lens_of [] = [].
Proof. reflexivity. Qed.

(** A block that follows a non-satisfying residue (or opens the sequence)
    adds its own run after those found before it. *)
Lemma lens_block_after (mP mA : list bool) :
  last mP false = false -> mA <> [] -> forallb (fun b => b) mA = true ->
  lens_of (mP ++ mA) = lens_of mP ++ [len mA].
Proof.
  intros Hlast Hne Hall.
  destruct mP as [|p mP0]; [now apply lens_block|].
  destruct (exists_last (l := p :: mP0)) as (mP' & y & E); [discriminate|].
  rewrite E in *. rewrite last_last in Hlast. subst y.
  rewrite <- app_assoc. cbn [app].
  rewrite (lens_split mP' mA), (lens_split mP' []), lens_nil, app_nil_r.
  f_equal. now apply lens_block.
Qed.

(** A block that precedes a non-satisfying residue (or closes the sequence)
    adds its own run before those found after it. *)
Lemma lens_block_before (mB mQ : list bool) :
  hd false mQ = false -> mB <> [] -> forallb (fun b => b) mB = true ->
  lens_of (mB ++ mQ) = len mB :: lens_of mQ.
Proof.
  intros Hhd Hne Hall.
  destruct mQ as [|z mQ']; [rewrite app_nil_r; now apply lens_block|].
  cbn [hd] in Hhd. subst z.
  pose proof (lens_split [] mQ') as Hskip. cbn [app] in Hskip.
  rewrite (lens_split mB mQ'), Hskip, lens_nil.
  cbn [app]. rewrite (lens_block mB Hne Hall). reflexivity.
Qed.

Lemma last_map {A B : Type} (f : A -> B) (l : list A) (d : A) :
  last (map f l) (f d) = f (last l d).
Proof.
  induction l as [|a l IH]; [reflexivity|].
  destruct l as [|b l]; [reflexivity|]. exact IH.
Qed.

Lemma hd_map {A B : Type} (f : A -> B) (l : list A) (d : A) :
  hd (f d) (map f l) = f (hd d l).
Proof. destruct l; reflexivity. Qed.

Lemma forallb_map {A : Type} (f : A -> bool) (l : list A) :
  forallb (fun b => b) (map f l) = forallb f l.
Proof.
  induction l as [|a l IH]; [reflexivity|]. cbn [map forallb]. now rewrite IH.
Qed.

Lemma len_map {A B : Type} (f : A -> B) (l : list A) : len (map f l) = len l.
Proof. unfold len. now rewrite length_map. Qed.

End Blocks.

Section BlockClaims.
Import Py PyFacts Blocks.

Context {score : Type} (score_le score_ge : score -> score -> bool).

(** Two blocks of satisfying residues with exactly one non-satisfying
    residue [x] between them, each bounded on its other side by a
    non-satisfying residue or by the end of the sequence, are found as two
    runs, between the runs found before and after them. *)
Lemma blocks_found_separately
    (P A B Q : list score) (x T : score) (above : bool) :
  A <> [] -> B <> [] ->
  forallb (satisfies score_le score_ge above T) A = true ->
  forallb (satisfies score_le score_ge above T) B = true ->
  satisfies score_le score_ge above T x = false ->
  satisfies score_le score_ge above T (last P x) = false ->
  satisfies score_le score_ge above T (hd x Q) = false ->
  found_lengths (getConsecutivepLDDTFromThreshold score_le score_ge
                   (P ++ A ++ x :: B ++ Q) T above)
  = found_lengths (getConsecutivepLDDTFromThreshold score_le score_ge P T above)
    ++ [len A; len B]
    ++ found_lengths (getConsecutivepLDDTFromThreshold score_le score_ge Q T above).
Proof.
  intros HA HB HallA HallB Hx HP HQ.
  rewrite !found_lengths_findRuns. unfold selectIndices.
  rewrite !map_app. cbn [map]. rewrite map_app, Hx.
  pose proof (last_map (satisfies score_le score_ge above T) P x) as HP'.
  rewrite HP, Hx in HP'.
  pose proof (hd_map (satisfies score_le score_ge above T) Q x) as HQ'.
  rewrite HQ, Hx in HQ'.
  rewrite app_assoc, lens_split.
  rewrite lens_block_after;
    [| exact HP' | intros E; apply map_eq_nil in E; contradiction
     | now rewrite forallb_map].
  rewrite lens_block_before;
    [| exact HQ' | intros E; apply map_eq_nil in E; contradiction
     | now rewrite forallb_map].
  rewrite !len_map, <- app_assoc. reflexivity.
Qed.

End BlockClaims.

(** ** Properties of the analysis *)

Section AnalysisClaims.
Import Py PyFacts Stretch Runs.

Context {score : Type} (score_le score_ge : score -> score -> bool).

Lemma len_positive (S : list score) : S <> [] -> 0 < len S.
Proof.
  destruct S as [|x S]; [contradiction|].
  intros _. rewrite len_cons. pose proof (len_nonneg S). lia.
Qed.

Lemma zero_ratio (n : Z) : (0 == inject_Z 0 / inject_Z n)%Q.
Proof. unfold Qdiv. now rewrite Qmult_0_l. Qed.

(** The residues inside the length-filtered runs of either direction are
    among the satisfying ones. *)
Lemma filtered_sum_bounds (S : list score) (T : score) (above : bool) (m : Z) :
  0 <= sum (filter (fun n => m <=? n)
              (found_lengths
                 (getConsecutivepLDDTFromThreshold score_le score_ge S T above)))
    <= count_satisfying score_le score_ge above T S.
Proof.
  rewrite found_lengths_findRuns.
  pose proof (sum_filter_bounds (fun n => m <=? n) _
                (findRuns_positive (selectIndices score_le score_ge S T above))) as H.
  rewrite findRuns_sum, select_len in H. exact H.
Qed.

(** With the cutoff 1 the length filter keeps every run. *)
Lemma filter_one_keeps_all (S : list score) (T : score) (above : bool) :
  filter (fun n => 1 <=? n)
    (found_lengths (getConsecutivepLDDTFromThreshold score_le score_ge S T above))
  = found_lengths (getConsecutivepLDDTFromThreshold score_le score_ge S T above).
Proof.
  apply filter_all. rewrite found_lengths_findRuns.
  eapply Forall_impl; [|apply findRuns_positive].
  cbn. intros n Hn. now apply Z.leb_le.
Qed.

(** C4 (amended): on the empty score sequence the analysis raises nothing
    and returns the fraction 0 together with [None] in place of the run
    lengths, whatever the threshold and the minimum length. *)
Theorem empty_scores_zero_and_none (T : score) (m : Z) :
  getDisorderedFractionFrompLDDTs score_le score_ge [] T m = Ok (0%Q, None).
Proof. apply analyze_none. reflexivity. Qed.

(** C6 (amended): the analysis takes no direction and always selects in
    the disorder direction ([<=]).  For every non-empty score sequence and
    threshold, with minimum length 1 it returns a fraction equal to the
    number of indices whose score is [<=] the threshold divided by the
    length of the sequence.  In either direction the length filter with
    cutoff 1 excludes no run found by the run detection, so the residues of
    the runs it keeps number the satisfying indices of that direction. *)
Theorem min_length_one_counts_every_disordered (S : list score) (T : score) :
  S <> [] ->
  (exists q lens,
     getDisorderedFractionFrompLDDTs score_le score_ge S T 1 = Ok (q, lens)
     /\ (q == inject_Z (count_satisfying score_le score_ge false T S)
              / inject_Z (len S))%Q)
  /\ (forall above,
        filter (fun n => 1 <=? n)
          (found_lengths
             (getConsecutivepLDDTFromThreshold score_le score_ge S T above))
        = found_lengths
            (getConsecutivepLDDTFromThreshold score_le score_ge S T above)
        /\ sum (filter (fun n => 1 <=? n)
                  (found_lengths
                     (getConsecutivepLDDTFromThreshold score_le score_ge S T above)))
           = count_satisfying score_le score_ge above T S).
Proof.
  intros HS. split.
  2:{ intros above. split; [apply filter_one_keeps_all|].
      rewrite filter_one_keeps_all, found_lengths_findRuns, findRuns_sum.
      apply select_len. }
  destruct (selectIndices score_le score_ge S T false) as [|a t] eqn:E.
  - exists 0%Q, None. split; [now apply analyze_none|].
    apply select_nil_count in E. rewrite E. apply zero_ratio.
  - eexists _, _. split; [exact (analyze_some _ _ _ _ _ _ _ E)|].
    rewrite filter_one_keeps_all, found_lengths_findRuns, findRuns_sum, select_len.
    reflexivity.
Qed.

(** C8: the analysis returns the pair [(0, None)] exactly when no index
    satisfies the disorder threshold; when runs are found and every one of
    them is shorter than the minimum length, it returns a fraction equal to
    0 together with an empty list, which is not [None]. *)
Theorem none_only_without_runs (S : list score) (T : score) (m : Z) :
  (getDisorderedFractionFrompLDDTs score_le score_ge S T m = Ok (0%Q, None)
   <-> count_satisfying score_le score_ge false T S = 0)
  /\ (found_lengths (getConsecutivepLDDTFromThreshold score_le score_ge S T false)
      <> [] ->
      Forall (fun n => n < m)
        (found_lengths (getConsecutivepLDDTFromThreshold score_le score_ge S T false)) ->
      exists q,
        getDisorderedFractionFrompLDDTs score_le score_ge S T m = Ok (q, Some [])
        /\ (q == 0)%Q).
Proof.
  destruct (selectIndices score_le score_ge S T false) as [|a t] eqn:E.
  - split.
    + split; intros _; [now apply select_nil_count | now apply analyze_none].
    + rewrite (detect_none _ _ _ _ _ E). intros H. now contradiction H.
  - split.
    + rewrite (analyze_some _ _ _ _ _ _ _ E). split; [discriminate|].
      intros H. apply select_nil_count in H. rewrite H in E. discriminate.
    + intros _ Hshort. rewrite (analyze_some _ _ _ _ _ _ _ E).
      rewrite (filter_none (fun n => m <=? n)).
      * eexists. split; [reflexivity|]. symmetry. apply zero_ratio.
      * eapply Forall_impl; [|exact Hshort].
        cbn. intros n Hn. apply Z.leb_gt. exact Hn.
Qed.

End AnalysisClaims.

(** ** Properties of the sub-sequence extractor *)

Section ExtractorClaims.
Import Py PyFacts.

Context {score : Type}.

(** C9: given both bounds, the start being a 1-based residue number, the
    extractor checks, in this order, start <= end, that the range fits the
    number of residues and that the end lies within the sequence.  When all
    three hold it returns the zero-based slice [[startRes - 1, endRes)] of
    the full score sequence, which has [endRes - startRes + 1] scores;
    otherwise it fails with one of the three range failures (each an
    assertion failure of the source). *)
Theorem sub_sequence_validated_slice (m : @pdb_model score) (startRes endRes : Z) :
  1 <= startRes ->
  (startRes <= endRes /\ endRes - startRes <= len m /\ endRes <= len m ->
   getpLDDTsSubSequenceFromAlphaFoldPDBModel m (Some startRes) (Some endRes)
   = (all <- getpLDDTsFromAlphaFoldPDBModel m ;;
      Ok (zero_based_slice all (startRes - 1) endRes))
   /\ forall all, getpLDDTsFromAlphaFoldPDBModel m = Ok all ->
        len (zero_based_slice all (startRes - 1) endRes) = endRes - startRes + 1)
  /\ (~ (startRes <= endRes /\ endRes - startRes <= len m /\ endRes <= len m) ->
      exists e,
        getpLDDTsSubSequenceFromAlphaFoldPDBModel m (Some startRes) (Some endRes)
        = Raise e /\ RangeError e).
Proof.
  intros Hs. unfold getpLDDTsSubSequenceFromAlphaFoldPDBModel.
  cbn [assert bind]. split.
  - intros (Hse & Hfit & He).
    assert (Hall : forall all, getpLDDTsFromAlphaFoldPDBModel m = Ok all ->
                     len all = len m).
    { intros all E. unfold len. f_equal.
      exact (comprehension_length _ _ _ E). }
    replace (startRes <=? endRes) with true by (symmetry; apply Z.leb_le; lia).
    replace (endRes - startRes <=? len m) with true by (symmetry; apply Z.leb_le; lia).
    replace (endRes <=? len m) with true by (symmetry; apply Z.leb_le; lia).
    cbn [assert bind]. split.
    + destruct (getpLDDTsFromAlphaFoldPDBModel m) as [all| |] eqn:E; try reflexivity.
      cbn [bind]. f_equal. apply slice_zero_based; try lia.
      rewrite (Hall all eq_refl). exact He.
    + intros all E. specialize (Hall all E).
      unfold zero_based_slice, len in *.
      rewrite length_firstn, length_skipn. lia.
  - intros Hbad. unfold RangeError.
    destruct (startRes <=? endRes) eqn:E1; cbn [assert bind];
      [|eexists; split; [reflexivity | left; reflexivity]].
    destruct (endRes - startRes <=? len m) eqn:E2; cbn [assert bind];
      [|eexists; split; [reflexivity | right; left; reflexivity]].
    destruct (endRes <=? len m) eqn:E3; cbn [assert bind];
      [|eexists; split; [reflexivity | right; right; reflexivity]].
    apply Z.leb_le in E1, E2, E3. contradiction Hbad. lia.
Qed.

(** C10: a call that gives exactly one of the two bounds fails with the
    assertion error asking for both, whatever the model and the bound; the
    call that gives neither returns the full score sequence. *)
Theorem one_bound_alone_fails (m : @pdb_model score) (startRes endRes : Z) :
  getpLDDTsSubSequenceFromAlphaFoldPDBModel m (Some startRes) None
  = Raise (AssertionError "Must provide BOTH of start res and end res if specified")
  /\ getpLDDTsSubSequenceFromAlphaFoldPDBModel m None (Some endRes)
     = Raise (AssertionError "Must provide BOTH of start res and end res if specified")
  /\ getpLDDTsSubSequenceFromAlphaFoldPDBModel m None None
     = getpLDDTsFromAlphaFoldPDBModel m.
Proof. repeat split. Qed.

End ExtractorClaims.

(** ** Concrete runs, with integer scores *)

Module Scenarios.
Import Py.

(** C3 (evaluation at the failing input): for the scores
    90, 40, 35, 92, 20, 15, 10, 88 and the disorder threshold 50 the two
    blocks of satisfying residues begin at positions 1 and 4 of the score
    sequence, while the run detection returns the starts 0 and 2, the
    positions of these residues in the list of selected indices
    1, 2, 4, 5, 6. *)
Theorem starts_index_the_selected_list :
  getConsecutivepLDDTFromThreshold Z.leb Z.geb [90; 40; 35; 92; 20; 15; 10; 88] 50 false
  = Ok (Some [0; 2], Some [2; 3])
  /\ selectIndices Z.leb Z.geb [90; 40; 35; 92; 20; 15; 10; 88] 50 false
     = [1; 2; 4; 5; 6]
  /\ findRuns (selectIndices Z.leb Z.geb [90; 40; 35; 92; 20; 15; 10; 88] 50 false)
     = [(1, 2); (4, 3)].
Proof. repeat split. Qed.

(** C4 (as stated, refuted): on the empty score sequence the analysis does
    not return an empty list of run lengths. *)
Lemma empty_scores_not_empty_list :
  ~ (exists q, getDisorderedFractionFrompLDDTs Z.leb Z.geb [] 50 1 = Ok (q, Some [])
               /\ (q == 0)%Q).
Proof. intros (q & H & _). vm_compute in H. discriminate. Qed.

(** C6 (as stated, refuted): in the order direction the single score 90
    satisfies the threshold 50, so the claimed fraction is 1/1, but the
    analysis returns the fraction 0. *)
Lemma order_direction_not_analysed :
  ~ (exists q lens,
       getDisorderedFractionFrompLDDTs Z.leb Z.geb [90] 50 1 = Ok (q, lens)
       /\ Qeq q (Qdiv (inject_Z (count_satisfying Z.leb Z.geb true 50 [90]))
                       (inject_Z (len [90])))).
Proof.
  intros (q & lens & H & Hq). vm_compute in H. injection H as <- _.
  vm_compute in Hq. discriminate.
Qed.

(** C5: two blocks of satisfying residues separated by exactly one
    non-satisfying residue are found as two runs, never as one.  For the
    scores 10, 90, 10, 90, 10 and the disorder threshold 50 three runs of
    length 1 are found; with minimum length 1 the analysis returns the
    fraction 3/5 and the lengths 1, 1, 1, with minimum length 2 a fraction
    equal to 0 and an empty list of lengths. *)
Theorem separated_blocks_stay_separate :
  (forall (score : Type) (score_le score_ge : score -> score -> bool)
          (P A B Q : list score) (x T : score) (above : bool),
      A <> [] -> B <> [] ->
      forallb (satisfies score_le score_ge above T) A = true ->
      forallb (satisfies score_le score_ge above T) B = true ->
      satisfies score_le score_ge above T x = false ->
      satisfies score_le score_ge above T (last P x) = false ->
      satisfies score_le score_ge above T (hd x Q) = false ->
      found_lengths (getConsecutivepLDDTFromThreshold score_le score_ge
                       (P ++ A ++ x :: B ++ Q) T above)
      = found_lengths (getConsecutivepLDDTFromThreshold score_le score_ge P T above)
        ++ [len A; len B]
        ++ found_lengths (getConsecutivepLDDTFromThreshold score_le score_ge Q T above))
  /\ found_lengths (getConsecutivepLDDTFromThreshold Z.leb Z.geb [10; 90; 10; 90; 10] 50 false)
     = [1; 1; 1]
  /\ getDisorderedFractionFrompLDDTs Z.leb Z.geb [10; 90; 10; 90; 10] 50 1
     = Ok (3 # 5, Some [1; 1; 1])
  /\ exists q,
       getDisorderedFractionFrompLDDTs Z.leb Z.geb [10; 90; 10; 90; 10] 50 2
       = Ok (q, Some [])
       /\ (q == 0)%Q.
Proof.
  split; [intros; now apply blocks_found_separately|].
  split; [reflexivity|]. split; [reflexivity|].
  eexists. split; reflexivity.
Qed.

Lemma separated_blocks_witness :
  found_lengths (getConsecutivepLDDTFromThreshold Z.leb Z.geb
                   ([90] ++ [10; 20] ++ 90 :: [30] ++ [95; 5]) 50 false)
  = found_lengths (getConsecutivepLDDTFromThreshold Z.leb Z.geb [90] 50 false)
    ++ [len [10; 20]; len [30]]
    ++ found_lengths (getConsecutivepLDDTFromThreshold Z.leb Z.geb [95; 5] 50 false).
Proof.
  apply (proj1 separated_blocks_stay_separate Z Z.leb Z.geb
           [90] [10; 20] [30] [95; 5] 90 50 false);
    solve [discriminate | reflexivity].
Defined.

Lemma runs_nonempty_disjoint_ascending_witness :
  getConsecutivepLDDTFromThreshold Z.leb Z.geb [90; 40; 35; 92; 20; 15; 10; 88] 50 false
  = Ok (Some [0; 2], Some [2; 3])
  /\ Forall (fun n => 1 <= n) [2; 3]
  /\ StronglySorted Z.lt [0; 2]
  /\ StronglySorted ends_before (combine [0; 2] [2; 3]).
Proof.
  split; [reflexivity|].
  destruct (runs_nonempty_disjoint_ascending Z.leb Z.geb
              [90; 40; 35; 92; 20; 15; 10; 88] 50 false [0; 2] [2; 3] eq_refl)
    as (_ & Hpos & Hinc & Hdis & _).
  repeat split; assumption.
Defined.

Lemma min_length_one_witness :
  [10; 90; 10; 90; 10] <> []
  /\ exists q lens,
       getDisorderedFractionFrompLDDTs Z.leb Z.geb [10; 90; 10; 90; 10] 50 1
       = Ok (q, lens)
       /\ Qeq q (Qdiv (inject_Z (count_satisfying Z.leb Z.geb false 50
                                     [10; 90; 10; 90; 10]))
                       (inject_Z (len [10; 90; 10; 90; 10]))).
Proof.
  split; [discriminate|].
  apply (proj1 (min_length_one_counts_every_disordered Z.leb Z.geb
                  [10; 90; 10; 90; 10] 50 ltac:(discriminate))).
Defined.

Lemma none_only_without_runs_witness :
  found_lengths (getConsecutivepLDDTFromThreshold Z.leb Z.geb [10; 90; 10] 50 false) <> []
  /\ Forall (fun n => n < 2)
       (found_lengths (getConsecutivepLDDTFromThreshold Z.leb Z.geb [10; 90; 10] 50 false))
  /\ exists q,
       getDisorderedFractionFrompLDDTs Z.leb Z.geb [10; 90; 10] 50 2 = Ok (q, Some [])
       /\ (q == 0)%Q.
Proof.
  assert (Hruns : found_lengths
                    (getConsecutivepLDDTFromThreshold Z.leb Z.geb [10; 90; 10] 50 false)
                  <> []) by (vm_compute; discriminate).
  assert (Hshort : Forall (fun n => n < 2)
                     (found_lengths
                        (getConsecutivepLDDTFromThreshold Z.leb Z.geb [10; 90; 10] 50 false)))
    by (vm_compute; repeat constructor).
  split; [exact Hruns|]. split; [exact Hshort|].
  exact (proj2 (none_only_without_runs Z.leb Z.geb [10; 90; 10] 50 2) Hruns Hshort).
Defined.

Lemma sub_sequence_validated_slice_witness :
  1 <= 2
  /\ getpLDDTsSubSequenceFromAlphaFoldPDBModel [[1; 2]; [3]; [4]; [5; 6]] (Some 2) (Some 3)
     = Ok [3; 4].
Proof.
  split; [lia|].
  destruct (sub_sequence_validated_slice [[1; 2]; [3]; [4]; [5; 6]] 2 3 ltac:(lia))
    as [Hvalid _].
  destruct Hvalid as [Hslice _]; [unfold len; cbn; lia|].
  rewrite Hslice. reflexivity.
Defined.

End Scenarios.

(** ** The runs found are the maximal blocks of satisfying residues *)

Module Maximal.
Import Py PyFacts Stretch Runs.

Lemma ascending_above (t : list Z) :
  forall a, ascending a t -> Forall (fun x => a < x) t.
Proof.
  induction t as [|b t IH]; intros a Hasc; [constructor|].
  destruct Hasc as [Hab Hasc]. constructor; [exact Hab|].
  eapply Forall_impl; [|apply IH; exact Hasc]. cbn. intros; lia.
Qed.

Lemma not_In_above (t : list Z) (a x : Z) :
  Forall (fun y => a < y) t -> x <= a -> ~ In x t.
Proof.
  intros Hall Hx Hin. rewrite Forall_forall in Hall.
  specialize (Hall x Hin). cbn in Hall. lia.
Qed.

(** Each run of [runs_after] consists of listed indices, ends after [a] at
    an index that is not listed, and, unless it is the run in progress,
    begins after a gap. *)
Lemma runs_after_blocks (t : list Z) :
  forall s n a,
    ascending a t -> s + n = a + 1 -> 1 <= n ->
    Forall (fun r =>
              (forall j, covers r j -> s <= j <= a \/ In j t)
              /\ ~ In (fst r + snd r) t
              /\ a < fst r + snd r
              /\ (fst r = s \/ (a + 1 < fst r /\ ~ In (fst r - 1) t)))
           (runs_after s n a t).
Proof.
  induction t as [|b t IH]; intros s n a Hasc Hcover Hn; cbn [runs_after].
  - constructor; [|constructor]. unfold covers. cbn [fst snd].
    repeat split; try (intros; lia); auto.
  - pose proof (ascending_above _ _ Hasc) as Habove.
    destruct Hasc as [Hab Hasc].
    pose proof (ascending_above _ _ Hasc) as Habove'.
    destruct (b =? a + 1) eqn:E.
    + apply Z.eqb_eq in E.
      eapply Forall_impl; [|apply (IH s (n + 1) b Hasc); lia].
      cbn beta. intros r (Hmem & Hright & Hend & Hleft).
      repeat split.
      * intros j Hj. destruct (Hmem j Hj) as [H|H].
        -- destruct (Z.eq_dec j b) as [->|Hne]; [right; left; reflexivity|].
           left. lia.
        -- right. right. exact H.
      * intros [H|H]; [lia | contradiction].
      * lia.
      * destruct Hleft as [H|[H1 H2]]; [left; exact H|].
        right. split; [lia|]. intros [H|H]; [lia | contradiction].
    + apply Z.eqb_neq in E. constructor.
      * unfold covers. cbn [fst snd]. repeat split.
        -- intros j Hj. left. lia.
        -- apply (not_In_above (b :: t) (a + 1)); [|lia].
           constructor; [lia|].
           eapply Forall_impl; [|exact Habove']. cbn. intros; lia.
        -- lia.
        -- left. reflexivity.
      * eapply Forall_impl; [|apply (IH b 1 b Hasc); lia].
        cbn beta. intros r (Hmem & Hright & Hend & Hleft).
        repeat split.
        -- intros j Hj. right. destruct (Hmem j Hj) as [H|H];
             [left; lia | right; exact H].
        -- intros [H|H]; [lia | contradiction].
        -- lia.
        -- right. destruct Hleft as [H|[H1 H2]].
           ++ split; [lia|]. rewrite H.
              apply (not_In_above (b :: t) (b - 1)); [|lia].
              constructor; [lia|].
              eapply Forall_impl; [|exact Habove']. cbn. intros; lia.
           ++ split; [lia|]. intros [H|H]; [lia | contradiction].
Qed.

(** Every listed index lies in one of the runs. *)
Lemma runs_after_cover (t : list Z) :
  forall s n a j,
    s + n = a + 1 -> 1 <= n ->
    s <= j <= a \/ In j t ->
    Exists (fun r => covers r j) (runs_after s n a t).
Proof.
  induction t as [|b t IH]; intros s n a j Hcover Hn Hj; cbn [runs_after].
  - destruct Hj as [Hj|[]]. constructor. unfold covers. cbn [fst snd]. lia.
  - destruct (b =? a + 1) eqn:E.
    + apply Z.eqb_eq in E. apply IH; [lia | lia |].
      destruct Hj as [Hj|[Hj|Hj]]; [left; lia | left; lia | right; exact Hj].
    + destruct Hj as [Hj|[Hj|Hj]].
      * apply Exists_cons_hd. unfold covers. cbn [fst snd]. lia.
      * apply Exists_cons_tl. apply IH; [lia | lia | left; lia].
      * apply Exists_cons_tl. apply IH; [lia | lia | right; exact Hj].
Qed.

Lemma findRuns_blocks (a : Z) (t : list Z) :
  ascending a t ->
  Forall (fun r =>
            (forall j, covers r j -> In j (a :: t))
            /\ ~ In (fst r - 1) (a :: t)
            /\ ~ In (fst r + snd r) (a :: t))
         (findRuns (a :: t)).
Proof.
  intros Hasc. cbn [findRuns].
  pose proof (ascending_above _ _ Hasc) as Habove.
  eapply Forall_impl; [|apply (runs_after_blocks t a 1 a Hasc); lia].
  cbn beta. intros r (Hmem & Hright & Hend & Hleft). repeat split.
  - intros j Hj. destruct (Hmem j Hj) as [H|H]; [left; lia | right; exact H].
  - destruct Hleft as [H|[H1 H2]].
    + rewrite H. apply (not_In_above (a :: t) (a - 1)); [|lia].
      constructor; [lia|]. eapply Forall_impl; [|exact Habove]. cbn. intros; lia.
    + intros [H|H]; [lia | contradiction].
  - intros [H|H]; [lia | contradiction].
Qed.

Lemma findRuns_cover (l : list Z) (j : Z) :
  In j l -> Exists (fun r => covers r j) (findRuns l).
Proof.
  destruct l as [|a t]; [intros []|]. intros Hj. cbn [findRuns].
  apply runs_after_cover; [lia | lia |].
  destruct Hj as [Hj|Hj]; [left; lia | right; exact Hj].
Qed.

(** The selected indices are the positions holding [true]. *)
Lemma In_argwhere_from (mask : list bool) :
  forall i j,
    In j (Np.argwhere_from i mask)
    <-> i <= j /\ nth_error mask (Z.to_nat (j - i)) = Some true.
Proof.
  induction mask as [|b mask IH]; intros i j; cbn [Np.argwhere_from].
  - split; [intros [] | intros [_ H]]. destruct (Z.to_nat (j - i)); discriminate.
  - assert (Hrest : In j (Np.argwhere_from (i + 1) mask)
                    <-> i < j /\ nth_error (b :: mask) (Z.to_nat (j - i)) = Some true).
    { rewrite IH. split; intros [H1 H2].
      - split; [lia|].
        replace (Z.to_nat (j - i)) with (S (Z.to_nat (j - (i + 1)))) by lia.
        exact H2.
      - split; [lia|].
        replace (Z.to_nat (j - i)) with (S (Z.to_nat (j - (i + 1)))) in H2 by lia.
        exact H2. }
    destruct b.
    + cbn [In]. rewrite Hrest. split.
      * intros [<-|[H1 H2]]; [|split; [lia | exact H2]].
        split; [lia|]. now rewrite Z.sub_diag.
      * intros [H1 H2]. destruct (Z.eq_dec i j) as [->|Hne];
          [left; reflexivity | right; split; [lia | exact H2]].
    + rewrite Hrest. split; intros [H1 H2]; [split; [lia | exact H2]|].
      split; [|exact H2].
      destruct (Z.eq_dec i j) as [->|Hne]; [|lia].
      rewrite Z.sub_diag in H2. discriminate.
Qed.

End Maximal.

Section MaximalBlocks.
Import Py PyFacts Stretch Runs Maximal.

Context {score : Type} (score_le score_ge : score -> score -> bool).

Lemma In_selectIndices (S : list score) (T : score) (above : bool) (j : Z) :
  In j (selectIndices score_le score_ge S T above)
  <-> satisfied_at score_le score_ge S T above j.
Proof.
  unfold selectIndices, Np.argwhere, satisfied_at.
  rewrite In_argwhere_from, Z.sub_0_r, nth_error_map.
  split.
  - intros [H0 H]. split; [exact H0|].
    destruct (nth_error S (Z.to_nat j)) as [s|]; [|discriminate].
    exists s. split; [reflexivity|]. cbn in H. now injection H.
  - intros [H0 (s & Hs & Hsat)]. split; [exact H0|].
    rewrite Hs. cbn. now rewrite Hsat.
Qed.

(** Whenever runs are found, reading the list of selected indices at the
    returned starts gives, run by run, a maximal block of satisfying
    residues of the stated length: all its residues satisfy the threshold
    predicate, the residue before it and the residue after it do not. *)
Theorem found_runs_are_maximal_blocks
    (S : list score) (T : score) (above : bool) (starts lens : list Z) :
  getConsecutivepLDDTFromThreshold score_le score_ge S T above
  = Ok (Some starts, Some lens) ->
  exists firsts,
    map (getitem (selectIndices score_le score_ge S T above)) starts
    = map (@Ok Z) firsts
    /\ Forall (maximal_block score_le score_ge S T above) (combine firsts lens).
Proof.
  intros Hd. destruct (selectIndices score_le score_ge S T above) as [|a t] eqn:E.
  - rewrite (detect_none _ _ _ _ _ E) in Hd. discriminate.
  - rewrite (detect_some _ _ _ _ _ _ _ E) in Hd. injection Hd as <- <-.
    exists (map fst (findRuns (a :: t))). split; [apply starts_read_selected|].
    rewrite combine_fst_snd.
    assert (Hasc : ascending a t) by (eapply argwhere_from_ascending; exact E).
    eapply Forall_impl; [|apply (findRuns_blocks a t Hasc)].
    cbn beta. intros r (Hmem & Hleft & Hright). unfold maximal_block.
    split; [|split].
    + intros j Hj. apply In_selectIndices. rewrite E. now apply Hmem.
    + intros H. apply In_selectIndices in H. rewrite E in H. contradiction.
    + intros H. apply In_selectIndices in H. rewrite E in H. contradiction.
Qed.

(** Whenever runs are found, every residue whose score satisfies the
    threshold predicate lies in one of them. *)
Theorem every_satisfying_residue_is_in_a_run
    (S : list score) (T : score) (above : bool) (starts lens : list Z) :
  getConsecutivepLDDTFromThreshold score_le score_ge S T above
  = Ok (Some starts, Some lens) ->
  exists firsts,
    map (getitem (selectIndices score_le score_ge S T above)) starts
    = map (@Ok Z) firsts
    /\ forall j, satisfied_at score_le score_ge S T above j ->
                 Exists (fun r => covers r j) (combine firsts lens).
Proof.
  intros Hd. destruct (selectIndices score_le score_ge S T above) as [|a t] eqn:E.
  - rewrite (detect_none _ _ _ _ _ E) in Hd. discriminate.
  - rewrite (detect_some _ _ _ _ _ _ _ E) in Hd. injection Hd as <- <-.
    exists (map fst (findRuns (a :: t))). split; [apply starts_read_selected|].
    rewrite combine_fst_snd. intros j Hj.
    apply (findRuns_cover (a :: t)). rewrite <- E. now apply In_selectIndices.
Qed.

(** The returned starts are the running totals of the returned lengths:
    the first is 0 and each next one is the previous start plus the
    previous length.  They locate the runs in the list of selected indices
    and carry no information beyond the lengths. *)
Theorem starts_are_running_totals
    (S : list score) (T : score) (above : bool) (starts lens : list Z) :
  getConsecutivepLDDTFromThreshold score_le score_ge S T above
  = Ok (Some starts, Some lens) ->
  starts = laid_from 0 lens /\ hd_error starts = Some 0.
Proof.
  intros Hd. destruct (selectIndices score_le score_ge S T above) as [|a t] eqn:E.
  - rewrite (detect_none _ _ _ _ _ E) in Hd. discriminate.
  - rewrite (detect_some _ _ _ _ _ _ _ E) in Hd. injection Hd as <- <-.
    split; [reflexivity|].
    cbn [findRuns]. destruct (runs_after_shape t a 1 a) as (k & rest & -> & _).
    reflexivity.
Qed.

(** The run detection returns one of two shapes and nothing in between:
    the pair [(None, None)] when no score satisfies the threshold
    predicate, or two arrays holding at least one run when some score does.
    It never returns an empty array and never a single [None]. *)
Theorem detection_returns_none_or_runs
    (S : list score) (T : score) (above : bool) :
  (getConsecutivepLDDTFromThreshold score_le score_ge S T above = Ok (None, None)
   /\ count_satisfying score_le score_ge above T S = 0)
  \/ (exists starts lens,
        getConsecutivepLDDTFromThreshold score_le score_ge S T above
        = Ok (Some starts, Some lens)
        /\ lens <> [] /\ length starts = length lens
        /\ 0 < count_satisfying score_le score_ge above T S).
Proof.
  destruct (selectIndices score_le score_ge S T above) as [|a t] eqn:E.
  - left. split; [exact (detect_none _ _ _ _ _ E)|]. now apply select_nil_count.
  - right. eexists _, _. split; [exact (detect_some _ _ _ _ _ _ _ E)|].
    split; [|split].
    + cbn [findRuns]. destruct (runs_after_shape t a 1 a) as (k & rest & -> & _).
      discriminate.
    + apply laid_length.
    + rewrite <- select_len, E, len_cons. pose proof (len_nonneg t). lia.
Qed.

End MaximalBlocks.

(** ** The share of residues in long enough runs, read off the mask *)

Module Kept.
Import Py PyFacts Stretch Runs Blocks.

Lemma keep_cases (m c : Z) :
  (m <= c /\ 1 <= c /\ keep m c = c) \/ ((c < m \/ c < 1) /\ keep m c = 0).
Proof.
  unfold keep.
  destruct (m <=? c) eqn:E1; destruct (1 <=? c) eqn:E2; cbn [andb];
    try apply Z.leb_le in E1; try apply Z.leb_le in E2;
    try apply Z.leb_gt in E1; try apply Z.leb_gt in E2;
    [left | right | right | right]; lia.
Qed.

Lemma sum_filter_cons (m x : Z) (l : list Z) :
  1 <= x ->
  sum (filter (fun n => m <=? n) (x :: l))
  = keep m x + sum (filter (fun n => m <=? n) l).
Proof.
  intros Hx. cbn [filter]. unfold keep.
  replace (1 <=? x) with true by (symmetry; apply Z.leb_le; lia).
  rewrite andb_true_r. destruct (m <=? x); [apply sum_cons | lia].
Qed.

(** The kept residues of the runs found over a mask. *)
Lemma kept_runs (m : Z) (mask : list bool) :
  (forall i s n, 1 <= n ->
     sum (filter (fun k => m <=? k)
            (map snd (runs_after s n (i - 1) (Np.argwhere_from i mask))))
     = kept_from m n mask)
  /\ (forall i,
        sum (filter (fun k => m <=? k)
               (map snd (findRuns (Np.argwhere_from i mask))))
        = kept_from m 0 mask).
Proof.
  induction mask as [|b mask [IH1 IH2]].
  - split.
    + intros i s n Hn. cbn [Np.argwhere_from runs_after map snd kept_from].
      rewrite sum_filter_cons by exact Hn. cbn. lia.
    + intros i. cbn [Np.argwhere_from findRuns map filter kept_from].
      rewrite sum_nil. destruct (keep_cases m 0) as [(? & ? & ->)|(? & ->)]; lia.
  - destruct b; cbn [Np.argwhere_from kept_from].
    + split.
      * intros i s n Hn. cbn [runs_after].
        replace (i =? i - 1 + 1) with true by (symmetry; apply Z.eqb_eq; lia).
        replace i with (i + 1 - 1) at 1 by lia. apply IH1. lia.
      * intros i. cbn [findRuns].
        replace i with (i + 1 - 1) at 2 by lia. apply IH1. lia.
    + split; [|intros i; rewrite IH2; destruct (keep_cases m 0); lia].
      intros i s n Hn. specialize (IH2 (i + 1)).
      pose proof (argwhere_from_lower mask (i + 1)) as Hlow.
      destruct (Np.argwhere_from (i + 1) mask) as [|b t].
      * cbn [runs_after map snd]. rewrite sum_filter_cons by exact Hn.
        cbn [findRuns map filter] in IH2. rewrite <- IH2. reflexivity.
      * inversion Hlow; subst. cbn [runs_after].
        replace (b =? i - 1 + 1) with false by (symmetry; apply Z.eqb_neq; lia).
        cbn [map snd]. rewrite sum_filter_cons by exact Hn.
        cbn [findRuns] in IH2. rewrite IH2. reflexivity.
Qed.

(** Turning non-satisfying residues into satisfying ones never lowers the
    kept residues: runs only grow and merge. *)
Lemma kept_grows (m : Z) (mask1 mask2 : list bool) :
  Forall2 (fun b1 b2 => b1 = true -> b2 = true) mask1 mask2 ->
  forall K d c,
    0 <= d -> d <= c -> 0 <= K -> (0 < K -> K + d + 1 <= c /\ m <= K) ->
    K + kept_from m d mask1 <= kept_from m c mask2.
Proof.
  induction 1 as [|b1 b2 mask1 mask2 Hb _ IH]; intros K d c Hd Hdc HK Hgap.
  - cbn [kept_from].
    destruct (keep_cases m d) as [(? & ? & ->)|(? & ->)];
      destruct (keep_cases m c) as [(? & ? & ->)|(? & ->)]; lia.
  - destruct b1, b2; cbn [kept_from].
    + apply IH; lia.
    + specialize (Hb eq_refl). discriminate.
    + rewrite Z.add_assoc. apply IH; try lia.
      * destruct (keep_cases m d) as [(? & ? & ->)|(? & ->)]; lia.
      * destruct (keep_cases m d) as [(? & ? & ->)|(? & ->)]; lia.
    + specialize (IH 0 0 0 ltac:(lia) ltac:(lia) ltac:(lia) ltac:(lia)).
      destruct (keep_cases m d) as [(? & ? & ->)|(? & ->)];
        destruct (keep_cases m c) as [(? & ? & ->)|(? & ->)]; lia.
Qed.

Lemma sum_filter_shrinks (m m' : Z) (lens : list Z) :
  Forall (fun n => 1 <= n) lens -> m <= m' ->
  sum (filter (fun n => m' <=? n) lens) <= sum (filter (fun n => m <=? n) lens).
Proof.
  intros Hpos Hm. induction Hpos as [|x lens Hx _ IH]; [cbn; lia|].
  rewrite !sum_filter_cons by exact Hx.
  destruct (keep_cases m x) as [(? & ? & ->)|(? & ->)];
    destruct (keep_cases m' x) as [(? & ? & ->)|(? & ->)]; lia.
Qed.

Lemma ratio_grows (a b n : Z) :
  a <= b -> 0 <= n -> (inject_Z a / inject_Z n <= inject_Z b / inject_Z n)%Q.
Proof.
  intros Hab Hn. destruct n as [|n|n]; try lia;
    unfold Qle, Qdiv, Qmult, Qinv, inject_Z; cbn; nia.
Qed.

Lemma ratio_one (n : Z) : 0 < n -> (inject_Z n / inject_Z n == 1)%Q.
Proof.
  intros Hn. destruct n as [|n|n]; try lia.
  unfold Qeq, Qdiv, Qmult, Qinv, inject_Z. cbn. lia.
Qed.

(** The lengths found over a mask are the lengths of its maximal blocks. *)
Lemma lens_are_block_lengths (mask : list bool) :
  (forall i s n, 1 <= n ->
     map snd (runs_after s n (i - 1) (Np.argwhere_from i mask))
     = block_lengths_from n mask)
  /\ (forall i,
        map snd (findRuns (Np.argwhere_from i mask)) = block_lengths_from 0 mask).
Proof.
  induction mask as [|b mask [IH1 IH2]].
  - split; [|reflexivity].
    intros i s n Hn. cbn [Np.argwhere_from runs_after map snd block_lengths_from].
    replace (1 <=? n) with true by (symmetry; apply Z.leb_le; lia). reflexivity.
  - destruct b; cbn [Np.argwhere_from block_lengths_from].
    + split.
      * intros i s n Hn. cbn [runs_after].
        replace (i =? i - 1 + 1) with true by (symmetry; apply Z.eqb_eq; lia).
        replace i with (i + 1 - 1) at 1 by lia. apply IH1. lia.
      * intros i. cbn [findRuns].
        replace i with (i + 1 - 1) at 2 by lia. apply IH1. lia.
    + split; [|intros i; apply IH2].
      intros i s n Hn. specialize (IH2 (i + 1)).
      replace (1 <=? n) with true by (symmetry; apply Z.leb_le; lia).
      pose proof (argwhere_from_lower mask (i + 1)) as Hlow.
      destruct (Np.argwhere_from (i + 1) mask) as [|b t].
      * cbn [runs_after map snd]. cbn [findRuns map] in IH2.
        now rewrite <- IH2.
      * inversion Hlow; subst. cbn [runs_after].
        replace (b =? i - 1 + 1) with false by (symmetry; apply Z.eqb_neq; lia).
        cbn [map snd]. cbn [findRuns] in IH2. now rewrite IH2.
Qed.

End Kept.

(** ** Further properties of the analysis *)

Section AnalysisMore.
Import Py PyFacts Stretch Runs Blocks Kept.

Context {score : Type} (score_le score_ge : score -> score -> bool).

(** The analysis in one equation, the empty sequence and the absence of
    runs included. *)
Lemma analyze_fraction (S : list score) (T : score) (m : Z) :
  exists q lens,
    getDisorderedFractionFrompLDDTs score_le score_ge S T m = Ok (q, lens)
    /\ (q == inject_Z (sum (filter (fun n => m <=? n)
                              (found_lengths
                                 (getConsecutivepLDDTFromThreshold
                                    score_le score_ge S T false))))
             / inject_Z (len S))%Q
    /\ reported_lengths lens
       = filter (fun n => m <=? n)
           (found_lengths
              (getConsecutivepLDDTFromThreshold score_le score_ge S T false)).
Proof.
  destruct (selectIndices score_le score_ge S T false) as [|a t] eqn:E.
  - exists 0%Q, None. split; [now apply analyze_none|].
    rewrite (detect_none _ _ _ _ _ E). split; [apply zero_ratio | reflexivity].
  - eexists _, _. split; [exact (analyze_some _ _ _ _ _ _ _ E)|].
    split; reflexivity.
Qed.

Lemma kept_of_found (S : list score) (T : score) (above : bool) (m : Z) :
  sum (filter (fun n => m <=? n)
         (found_lengths
            (getConsecutivepLDDTFromThreshold score_le score_ge S T above)))
  = kept_from m 0 (map (satisfies score_le score_ge above T) S).
Proof.
  rewrite found_lengths_findRuns. unfold selectIndices, Np.argwhere.
  apply (proj2 (kept_runs m _)).
Qed.

Lemma found_lengths_bounded (S : list score) (T : score) (above : bool) :
  Forall (fun n => 1 <= n <= len S)
    (found_lengths (getConsecutivepLDDTFromThreshold score_le score_ge S T above)).
Proof.
  rewrite found_lengths_findRuns.
  pose proof (findRuns_sum (selectIndices score_le score_ge S T above)) as Hsum.
  pose proof (count_le_len score_le score_ge S T above) as Hc.
  rewrite <- select_len in Hc.
  apply (laid_bounded (len S) _ 0);
    [lia | apply findRuns_positive | lia].
Qed.

(** For every input, the empty sequence included, the analysis returns: it
    never divides by zero, never reads outside an array, and its loop ends.
    The fraction it returns lies in [0, 1]. *)
Theorem analysis_always_returns (S : list score) (T : score) (m : Z) :
  exists q lens,
    getDisorderedFractionFrompLDDTs score_le score_ge S T m = Ok (q, lens)
    /\ (0 <= q <= 1)%Q.
Proof.
  destruct (selectIndices score_le score_ge S T false) as [|a t] eqn:E.
  - exists 0%Q, None. split; [now apply analyze_none|].
    split; [apply Qle_refl | discriminate].
  - eexists _, _. split; [exact (analyze_some _ _ _ _ _ _ _ E)|].
    pose proof (filtered_sum_bounds score_le score_ge S T false m).
    pose proof (count_le_len score_le score_ge S T false) as Hc.
    assert (0 < len S).
    { rewrite <- select_len, E, len_cons in Hc. pose proof (len_nonneg t). lia. }
    apply ratio_bounds; lia.
Qed.

(** Raising the minimum length never raises the fraction. *)
Theorem fraction_falls_with_min_length (S : list score) (T : score) (m m' : Z) :
  m <= m' ->
  exists q lens q' lens',
    getDisorderedFractionFrompLDDTs score_le score_ge S T m = Ok (q, lens)
    /\ getDisorderedFractionFrompLDDTs score_le score_ge S T m' = Ok (q', lens')
    /\ (q' <= q)%Q.
Proof.
  intros Hm.
  destruct (analyze_fraction S T m) as (q & lens & H & Hq & _).
  destruct (analyze_fraction S T m') as (q' & lens' & H' & Hq' & _).
  exists q, lens, q', lens'. split; [exact H|]. split; [exact H'|].
  rewrite Hq, Hq'. apply ratio_grows; [|apply len_nonneg].
  apply sum_filter_shrinks; [|exact Hm].
  eapply Forall_impl; [|apply found_lengths_bounded]. cbn. intros; lia.
Qed.

(** Raising the disorder threshold never lowers the fraction, whatever the
    minimum length: if every score of the sequence that is [<=] the first
    threshold is [<=] the second, the fraction at the second threshold is at
    least the fraction at the first. *)
Theorem fraction_rises_with_threshold (S : list score) (T T' : score) (m : Z) :
  (forall s, In s S -> score_le s T = true -> score_le s T' = true) ->
  exists q lens q' lens',
    getDisorderedFractionFrompLDDTs score_le score_ge S T m = Ok (q, lens)
    /\ getDisorderedFractionFrompLDDTs score_le score_ge S T' m = Ok (q', lens')
    /\ (q <= q')%Q.
Proof.
  intros Hle.
  destruct (analyze_fraction S T m) as (q & lens & H & Hq & _).
  destruct (analyze_fraction S T' m) as (q' & lens' & H' & Hq' & _).
  exists q, lens, q', lens'. split; [exact H|]. split; [exact H'|].
  rewrite Hq, Hq', !kept_of_found. apply ratio_grows; [|apply len_nonneg].
  pose proof (kept_grows m
                (map (satisfies score_le score_ge false T) S)
                (map (satisfies score_le score_ge false T') S)) as Hgrow.
  specialize (Hgrow ltac:(
    clear - Hle; induction S as [|s S IH]; cbn [map]; constructor;
    [apply Hle; left; reflexivity
    | apply IH; intros s' Hin; apply Hle; right; exact Hin])).
  specialize (Hgrow 0 0 0 ltac:(lia) ltac:(lia) ltac:(lia) ltac:(lia)). lia.
Qed.

(** A minimum length of 1 or less, zero and negative values included,
    filters nothing: the result is the one for minimum length 1. *)
Theorem min_length_below_one_is_one (S : list score) (T : score) (m : Z) :
  m <= 1 ->
  getDisorderedFractionFrompLDDTs score_le score_ge S T m
  = getDisorderedFractionFrompLDDTs score_le score_ge S T 1.
Proof.
  intros Hm.
  destruct (selectIndices score_le score_ge S T false) as [|a t] eqn:E.
  - now rewrite !analyze_none.
  - rewrite !(analyze_some _ _ _ _ _ _ _ E).
    rewrite filter_one_keeps_all.
    rewrite (filter_all (fun n => m <=? n)); [reflexivity|].
    eapply Forall_impl; [|apply found_lengths_bounded].
    cbn. intros n Hn. apply Z.leb_le. lia.
Qed.

(** A minimum length above the number of scores excludes every run: the
    fraction equals 0 and no length is reported. *)
Theorem min_length_above_sequence_reports_nothing
    (S : list score) (T : score) (m : Z) :
  len S < m ->
  exists q lens,
    getDisorderedFractionFrompLDDTs score_le score_ge S T m = Ok (q, lens)
    /\ (q == 0)%Q
    /\ reported_lengths lens = [].
Proof.
  intros Hm. destruct (analyze_fraction S T m) as (q & lens & H & Hq & Hl).
  exists q, lens. split; [exact H|].
  rewrite (filter_none (fun n => m <=? n)) in Hq, Hl.
  - split; [|exact Hl]. rewrite Hq. symmetry. apply zero_ratio.
  - eapply Forall_impl; [|apply found_lengths_bounded].
    cbn. intros n Hn. apply Z.leb_gt. lia.
  - eapply Forall_impl; [|apply found_lengths_bounded].
    cbn. intros n Hn. apply Z.leb_gt. lia.
Qed.

(** Every run length the analysis reports is at least the minimum length,
    at least 1 and at most the number of scores, and together the reported
    runs hold no more residues than satisfy the disorder threshold. *)
Theorem reported_lengths_meet_the_cutoff
    (S : list score) (T : score) (m : Z) (q : Q) (lens : list Z) :
  getDisorderedFractionFrompLDDTs score_le score_ge S T m = Ok (q, Some lens) ->
  Forall (fun n => m <= n /\ 1 <= n <= len S) lens
  /\ sum lens <= count_satisfying score_le score_ge false T S.
Proof.
  intros H. destruct (analyze_fraction S T m) as (q0 & lens0 & H0 & _ & Hl).
  rewrite H in H0. injection H0 as <- <-. cbn [reported_lengths] in Hl.
  rewrite Hl. split.
  - apply Forall_forall. intros n Hn. apply filter_In in Hn as [Hin Hge].
    apply Z.leb_le in Hge. split; [exact Hge|].
    pose proof (found_lengths_bounded S T false) as Hb.
    rewrite Forall_forall in Hb. exact (Hb n Hin).
  - apply filtered_sum_bounds.
Qed.

(** When every score of a non-empty sequence satisfies the threshold
    predicate, one run is found: it starts at 0 and spans the sequence.  The
    analysis then returns a fraction equal to 1 for every minimum length up
    to the number of scores. *)
Theorem whole_sequence_is_one_run (S : list score) (T : score) :
  S <> [] ->
  (forall above,
     forallb (satisfies score_le score_ge above T) S = true ->
     getConsecutivepLDDTFromThreshold score_le score_ge S T above
     = Ok (Some [0], Some [len S]))
  /\ (forall m,
        forallb (satisfies score_le score_ge false T) S = true ->
        m <= len S ->
        exists q,
          getDisorderedFractionFrompLDDTs score_le score_ge S T m
          = Ok (q, Some [len S])
          /\ (q == 1)%Q).
Proof.
  intros HS.
  assert (Hone : forall above,
            forallb (satisfies score_le score_ge above T) S = true ->
            getConsecutivepLDDTFromThreshold score_le score_ge S T above
            = Ok (Some [0], Some [len S])).
  { intros above Hall.
    assert (Hlens : map snd (findRuns (selectIndices score_le score_ge S T above))
                    = [len S]).
    { unfold selectIndices. rewrite lens_block.
      - now rewrite len_map.
      - intros E. apply map_eq_nil in E. contradiction.
      - now rewrite forallb_map. }
    destruct (selectIndices score_le score_ge S T above) as [|a t] eqn:E;
      [discriminate|].
    rewrite (detect_some _ _ _ _ _ _ _ E), Hlens. reflexivity. }
  split; [exact Hone|].
  intros m Hall Hm. specialize (Hone false Hall).
  unfold getDisorderedFractionFrompLDDTs, getConsecutiveDisorderedFrompLDDTs.
  rewrite Hone. cbn [bind Np.ge Np.select map].
  replace (m <=? len S) with true by (symmetry; apply Z.leb_le; lia).
  unfold truediv.
  pose proof (len_positive S HS) as Hlen.
  replace (len S =? 0) with false by (symmetry; apply Z.eqb_neq; lia).
  cbn [bind]. eexists. split; [reflexivity|].
  replace (sum [len S]) with (len S) by (rewrite sum_cons, sum_nil; lia).
  now apply ratio_one.
Qed.

(** Residues that do not satisfy the threshold predicate, put in front of
    the sequence or behind it, change nothing in what the run detection
    returns, the starts included. *)
Theorem padding_changes_nothing
    (P S P' : list score) (T : score) (above : bool) :
  forallb (fun s => negb (satisfies score_le score_ge above T s)) P = true ->
  forallb (fun s => negb (satisfies score_le score_ge above T s)) P' = true ->
  getConsecutivepLDDTFromThreshold score_le score_ge (P ++ S ++ P') T above
  = getConsecutivepLDDTFromThreshold score_le score_ge S T above.
Proof.
  intros HP HP'.
  assert (Hnone : forall (l : list score) i,
            forallb (fun s => negb (satisfies score_le score_ge above T s)) l = true ->
            Np.argwhere_from i (map (satisfies score_le score_ge above T) l) = []).
  { induction l as [|s l IH]; intros i Hl; [reflexivity|].
    cbn [forallb] in Hl. apply andb_prop in Hl as [Hs Hl].
    cbn [map Np.argwhere_from].
    destruct (satisfies score_le score_ge above T s); [discriminate|].
    now apply IH. }
  assert (Hsel : selectIndices score_le score_ge (P ++ S ++ P') T above
                 = map (Z.add (len P)) (selectIndices score_le score_ge S T above)).
  { unfold selectIndices, Np.argwhere.
    rewrite !map_app, !argwhere_from_app, (Hnone P 0 HP), (Hnone P' _ HP').
    rewrite app_nil_r. cbn [app]. rewrite len_map.
    apply argwhere_from_shift. }
  destruct (selectIndices score_le score_ge S T above) as [|a t] eqn:E.
  - cbn [map] in Hsel.
    now rewrite (detect_none _ _ _ _ _ Hsel), (detect_none _ _ _ _ _ E).
  - cbn [map] in Hsel.
    rewrite (detect_some _ _ _ _ _ _ _ Hsel), (detect_some _ _ _ _ _ _ _ E).
    change (len P + a :: map (Z.add (len P)) t) with (map (Z.add (len P)) (a :: t)).
    now rewrite findRuns_shift.
Qed.

(** When no score ties with the threshold or fails both comparisons (each
    score satisfies exactly one of [<=] and [>=]), the disordered runs and
    the ordered runs together hold every residue exactly once: their lengths
    sum to the number of scores. *)
Theorem ordered_and_disordered_runs_share_the_sequence
    (S : list score) (T : score) :
  Forall (fun s => score_ge s T = negb (score_le s T)) S ->
  sum (found_lengths (getConsecutiveDisorderedFrompLDDTs score_le score_ge S T))
  + sum (found_lengths (getConsecutiveOrderedFrompLDDTs score_le score_ge S T))
  = len S.
Proof.
  intros Hex.
  unfold getConsecutiveDisorderedFrompLDDTs, getConsecutiveOrderedFrompLDDTs.
  rewrite !found_lengths_findRuns, !findRuns_sum, !select_len.
  unfold count_satisfying, satisfies.
  induction Hex as [|s S Hs _ IH]; [reflexivity|].
  cbn [filter]. rewrite Hs.
  destruct (score_le s T); cbn [negb]; rewrite !len_cons; lia.
Qed.

(** In either direction the lengths the run detection finds are the lengths
    of the maximal blocks of satisfying scores, read off the scores. *)
Lemma found_lengths_are_block_lengths (S : list score) (T : score) (above : bool) :
  found_lengths (getConsecutivepLDDTFromThreshold score_le score_ge S T above)
  = block_lengths (map (satisfies score_le score_ge above T) S).
Proof.
  rewrite found_lengths_findRuns. unfold selectIndices, Np.argwhere, block_lengths.
  apply (proj2 (lens_are_block_lengths _)).
Qed.

(** C7 (amended): the analysis takes no direction and always selects in the
    disorder direction ([<=]).  For every non-empty score sequence,
    threshold and minimum length it returns a fraction in [0, 1]; the run
    lengths it reports are the lengths of the maximal blocks of scores [<=]
    the threshold, read off the scores themselves, that reach the minimum
    length; and the fraction equals the residues of these blocks divided by
    the number of scores.  In either direction the run detection finds
    exactly the maximal blocks of satisfying scores. *)
Theorem fraction_is_share_of_long_disordered_blocks
    (S : list score) (T : score) (m : Z) :
  S <> [] ->
  (exists q lens,
     getDisorderedFractionFrompLDDTs score_le score_ge S T m = Ok (q, lens)
     /\ (0 <= q <= 1)%Q
     /\ reported_lengths lens
        = filter (fun n => m <=? n)
            (block_lengths (map (fun s => score_le s T) S))
     /\ (q == inject_Z (sum (filter (fun n => m <=? n)
                               (block_lengths (map (fun s => score_le s T) S))))
              / inject_Z (len S))%Q)
  /\ (forall above,
        found_lengths (getConsecutivepLDDTFromThreshold score_le score_ge S T above)
        = block_lengths (map (satisfies score_le score_ge above T) S)).
Proof.
  intros HS. split; [|intros above; apply found_lengths_are_block_lengths].
  destruct (analyze_fraction S T m) as (q & lens & H & Hq & Hl).
  pose proof (filtered_sum_bounds score_le score_ge S T false m) as Hsum.
  pose proof (count_le_len score_le score_ge S T false) as Hc.
  pose proof (len_positive S HS) as Hlen.
  assert (Hunit : (0 <= q <= 1)%Q).
  { rewrite Hq. apply ratio_bounds; lia. }
  rewrite found_lengths_are_block_lengths in Hq, Hl.
  change (map (satisfies score_le score_ge false T) S)
    with (map (fun s => score_le s T) S) in Hq, Hl.
  exists q, lens. split; [exact H|]. split; [exact Hunit|].
  split; [exact Hl | exact Hq].
Qed.

End AnalysisMore.

(** ** Further properties of the extraction and of the analysis of a model *)

Section ExtractorMore.
Import Py PyFacts.

Context {score : Type} (score_le score_ge : score -> score -> bool).

(** The full score sequence has one score per residue, the B-factor of the
    first atom of the residue, when every residue has an atom; a residue
    without atoms makes the extraction raise StopIteration. *)
Theorem first_atoms_or_stop (m : @pdb_model score) :
  (Forall (fun r => r <> []) m ->
   exists all,
     getpLDDTsFromAlphaFoldPDBModel m = Ok all
     /\ map (@hd_error score) m = map (@Some score) all)
  /\ (Exists (fun r => r = []) m ->
      getpLDDTsFromAlphaFoldPDBModel m = Raise StopIteration).
Proof.
  unfold getpLDDTsFromAlphaFoldPDBModel. split.
  - induction 1 as [|r m Hr _ (all & IH & IHmap)].
    + exists []. split; reflexivity.
    + destruct r as [|x r]; [contradiction|].
      exists (x :: all). cbn [comprehension next bind]. rewrite IH.
      cbn [bind map hd_error]. split; [reflexivity | now rewrite IHmap].
  - induction 1 as [r m Hr | r m _ IH].
    + subst r. reflexivity.
    + destruct r as [|x r]; cbn [comprehension next bind]; [reflexivity|].
      now rewrite IH.
Qed.

(** The extraction of the full sequence fails in no other way. *)
Lemma full_sequence_outcomes (m : @pdb_model score) :
  (exists all, getpLDDTsFromAlphaFoldPDBModel m = Ok all /\ len all = len m)
  \/ getpLDDTsFromAlphaFoldPDBModel m = Raise StopIteration.
Proof.
  unfold getpLDDTsFromAlphaFoldPDBModel.
  induction m as [|r m IH]; [left; exists []; split; reflexivity|].
  destruct r as [|x r]; cbn [comprehension next bind]; [right; reflexivity|].
  destruct IH as [(all & -> & Hlen)| ->]; [left | right; reflexivity].
  exists (x :: all). split; [reflexivity|]. rewrite !len_cons. lia.
Qed.

(** Asking for residues 1 to N of a model of N >= 1 residues is asking for
    the whole sequence. *)
Theorem whole_range_is_whole_sequence (m : @pdb_model score) :
  m <> [] ->
  getpLDDTsSubSequenceFromAlphaFoldPDBModel m (Some 1) (Some (len m))
  = getpLDDTsSubSequenceFromAlphaFoldPDBModel m None None.
Proof.
  intros Hm. assert (Hlen : 1 <= len m).
  { destruct m; [contradiction|]. rewrite len_cons.
    pose proof (len_nonneg m). lia. }
  unfold getpLDDTsSubSequenceFromAlphaFoldPDBModel. cbn [assert bind].
  replace (1 <=? len m) with true by (symmetry; apply Z.leb_le; lia).
  replace (len m - 1 <=? len m) with true by (symmetry; apply Z.leb_le; lia).
  rewrite Z.leb_refl. cbn [assert bind].
  destruct (full_sequence_outcomes m) as [(all & -> & Hall)| ->]; [|reflexivity].
  cbn [bind]. f_equal. unfold slice, clamp. cbn [Z.sub Z.add Z.opp Z.pos_sub Z.ltb Z.compare].
  rewrite Hall.
  replace (len m <? 0) with false by (symmetry; apply Z.ltb_ge; lia).
  rewrite !Z.min_l by lia.
  cbn [Z.to_nat skipn]. rewrite Z.sub_0_r. apply firstn_all2.
  unfold len in *. lia.
Qed.

(** A start of 0 is not a residue number, yet no check rejects it: with an
    end of 0 or more that lies before the last residue the extraction
    succeeds and returns no score at all, and the analysis of the model then
    returns the fraction 0 and [None]. *)
Theorem zero_start_is_not_rejected
    (m : @pdb_model score) (endRes : Z) (all : list score) (T : score) (minLen : Z) :
  getpLDDTsFromAlphaFoldPDBModel m = Ok all ->
  0 <= endRes < len m ->
  getpLDDTsSubSequenceFromAlphaFoldPDBModel m (Some 0) (Some endRes) = Ok []
  /\ getDisorderedFractionFromPDB score_le score_ge m T minLen (Some 0) (Some endRes)
     = Ok (0%Q, None).
Proof.
  intros Hall He.
  assert (Hsub : getpLDDTsSubSequenceFromAlphaFoldPDBModel m (Some 0) (Some endRes)
                 = Ok []).
  { unfold getpLDDTsSubSequenceFromAlphaFoldPDBModel. cbn [assert bind].
    replace (0 <=? endRes) with true by (symmetry; apply Z.leb_le; lia).
    replace (endRes - 0 <=? len m) with true by (symmetry; apply Z.leb_le; lia).
    replace (endRes <=? len m) with true by (symmetry; apply Z.leb_le; lia).
    cbn [assert bind]. rewrite Hall. cbn [bind]. f_equal.
    assert (Hlen : len all = len m).
    { unfold len. f_equal. exact (comprehension_length _ _ _ Hall). }
    unfold slice, clamp. change (0 - 1 <? 0) with true. cbn iota.
    rewrite Hlen.
    replace (endRes <? 0) with false by (symmetry; apply Z.ltb_ge; lia).
    rewrite Z.min_l by lia. rewrite Z.max_r by lia.
    replace (Z.to_nat (endRes - (0 - 1 + len m))) with 0%nat by lia.
    reflexivity. }
  split; [exact Hsub|].
  unfold getDisorderedFractionFromPDB. rewrite Hsub. cbn [bind].
  apply analyze_none. reflexivity.
Qed.

(** With valid 1-based bounds the score of residue number [r] is found at
    position [r - startRes] of the extracted sub-sequence. *)
Theorem sub_sequence_scores_by_residue_number
    (m : @pdb_model score) (startRes endRes : Z) (all : list score) :
  1 <= startRes -> startRes <= endRes -> endRes <= len m ->
  getpLDDTsFromAlphaFoldPDBModel m = Ok all ->
  exists sub,
    getpLDDTsSubSequenceFromAlphaFoldPDBModel m (Some startRes) (Some endRes) = Ok sub
    /\ forall r, startRes <= r <= endRes ->
         nth_error sub (Z.to_nat (r - startRes)) = nth_error all (Z.to_nat (r - 1)).
Proof.
  intros Hs Hse He Hall.
  assert (Hlen : len all = len m).
  { unfold len. f_equal. exact (comprehension_length _ _ _ Hall). }
  exists (zero_based_slice all (startRes - 1) endRes). split.
  - unfold getpLDDTsSubSequenceFromAlphaFoldPDBModel. cbn [assert bind].
    replace (startRes <=? endRes) with true by (symmetry; apply Z.leb_le; lia).
    replace (endRes - startRes <=? len m) with true by (symmetry; apply Z.leb_le; lia).
    replace (endRes <=? len m) with true by (symmetry; apply Z.leb_le; lia).
    cbn [assert bind]. rewrite Hall. cbn [bind]. f_equal.
    apply slice_zero_based; lia.
  - intros r Hr. unfold zero_based_slice.
    rewrite nth_error_firstn.
    replace (Z.to_nat (r - startRes) <? Z.to_nat (endRes - (startRes - 1)))%nat
      with true by (symmetry; apply Nat.ltb_lt; lia).
    rewrite nth_error_skipn. f_equal. lia.
Qed.

(** The range checks are made in a fixed order and before any score is
    read: a start after the end is reported first, then a range longer than
    the model, then an end beyond the last residue, whatever the residues
    hold. *)
Theorem range_failures_in_order (m : @pdb_model score) (startRes endRes : Z) :
  (endRes < startRes ->
   getpLDDTsSubSequenceFromAlphaFoldPDBModel m (Some startRes) (Some endRes)
   = Raise (AssertionError
       "Start Residue number sub-sequence is greater than end residue number!"))
  /\ (startRes <= endRes -> len m < endRes - startRes ->
      getpLDDTsSubSequenceFromAlphaFoldPDBModel m (Some startRes) (Some endRes)
      = Raise (AssertionError "Residue Sub Selection larger than AlphaFold sequence!"))
  /\ (startRes <= endRes -> endRes - startRes <= len m -> len m < endRes ->
      getpLDDTsSubSequenceFromAlphaFoldPDBModel m (Some startRes) (Some endRes)
      = Raise (AssertionError "Residue Sub Selection outside of AlphaFold Sequence!")).
Proof.
  unfold getpLDDTsSubSequenceFromAlphaFoldPDBModel. cbn [assert bind].
  repeat split.
  - intros H.
    replace (startRes <=? endRes) with false by (symmetry; apply Z.leb_gt; lia).
    reflexivity.
  - intros H1 H2.
    replace (startRes <=? endRes) with true by (symmetry; apply Z.leb_le; lia).
    replace (endRes - startRes <=? len m) with false by (symmetry; apply Z.leb_gt; lia).
    reflexivity.
  - intros H1 H2 H3.
    replace (startRes <=? endRes) with true by (symmetry; apply Z.leb_le; lia).
    replace (endRes - startRes <=? len m) with true by (symmetry; apply Z.leb_le; lia).
    replace (endRes <=? len m) with false by (symmetry; apply Z.leb_gt; lia).
    reflexivity.
Qed.

Lemma sub_sequence_outcomes (m : @pdb_model score) (startRes endRes : option Z) :
  (exists sub, getpLDDTsSubSequenceFromAlphaFoldPDBModel m startRes endRes = Ok sub)
  \/ getpLDDTsSubSequenceFromAlphaFoldPDBModel m startRes endRes = Raise StopIteration
  \/ exists msg,
       getpLDDTsSubSequenceFromAlphaFoldPDBModel m startRes endRes
       = Raise (AssertionError msg).
Proof.
  unfold getpLDDTsSubSequenceFromAlphaFoldPDBModel.
  destruct startRes as [s|], endRes as [e|]; cbn [assert bind].
  - destruct (s <=? e); cbn [assert bind]; [|right; right; eexists; reflexivity].
    destruct (e - s <=? len m); cbn [assert bind];
      [|right; right; eexists; reflexivity].
    destruct (e <=? len m); cbn [assert bind];
      [|right; right; eexists; reflexivity].
    destruct (full_sequence_outcomes m) as [(all & -> & _)| ->]; cbn [bind];
      [left; eexists; reflexivity | right; left; reflexivity].
  - right; right; eexists; reflexivity.
  - right; right; eexists; reflexivity.
  - destruct (full_sequence_outcomes m) as [(all & -> & _)| ->];
      [left; eexists; reflexivity | right; left; reflexivity].
Qed.

(** The analysis of a parsed model does what the extraction followed by the
    analysis of the extracted scores does, and adds no failure of its own.
    When the extraction returns a score sequence, the result is the report
    (with a fraction in [0, 1]) that the analysis returns on that sequence;
    when the extraction raises StopIteration or an assertion error, the
    same exception, with the same message, is the result.  There is no
    other outcome. *)
Theorem model_analysis_fails_only_in_extraction
    (m : @pdb_model score) (T : score) (minLen : Z) (startRes endRes : option Z) :
  (exists sub q lens,
     getpLDDTsSubSequenceFromAlphaFoldPDBModel m startRes endRes = Ok sub
     /\ getDisorderedFractionFrompLDDTs score_le score_ge sub T minLen = Ok (q, lens)
     /\ (0 <= q <= 1)%Q
     /\ getDisorderedFractionFromPDB score_le score_ge m T minLen startRes endRes
        = Ok (q, lens))
  \/ (getpLDDTsSubSequenceFromAlphaFoldPDBModel m startRes endRes
      = Raise StopIteration
      /\ getDisorderedFractionFromPDB score_le score_ge m T minLen startRes endRes
         = Raise StopIteration)
  \/ (exists msg,
        getpLDDTsSubSequenceFromAlphaFoldPDBModel m startRes endRes
        = Raise (AssertionError msg)
        /\ getDisorderedFractionFromPDB score_le score_ge m T minLen startRes endRes
           = Raise (AssertionError msg)).
Proof.
  unfold getDisorderedFractionFromPDB.
  destruct (sub_sequence_outcomes m startRes endRes) as [(sub & ->)|[->|(msg & ->)]];
    cbn [bind].
  - left. destruct (analyze_fraction score_le score_ge sub T minLen)
      as (q & lens & H & Hq & _).
    exists sub, q, lens. split; [reflexivity|]. split; [exact H|].
    split; [|exact H].
    rewrite Hq. destruct sub as [|x sub].
    + split; [apply Qle_refl | discriminate].
    + pose proof (filtered_sum_bounds score_le score_ge (x :: sub) T false minLen).
      pose proof (count_le_len score_le score_ge (x :: sub) T false).
      apply ratio_bounds; [lia|]. apply len_positive. discriminate.
  - right. left. split; reflexivity.
  - right. right. exists msg. split; reflexivity.
Qed.

End ExtractorMore.

(** ** The further properties at concrete inputs *)

Module MoreScenarios.
Import Py.

Lemma found_runs_are_maximal_blocks_witness :
  getConsecutivepLDDTFromThreshold Z.leb Z.geb [90; 40; 35; 92; 20; 15; 10; 88] 50 false
  = Ok (Some [0; 2], Some [2; 3])
  /\ exists firsts,
       map (getitem (selectIndices Z.leb Z.geb [90; 40; 35; 92; 20; 15; 10; 88] 50 false))
         [0; 2]
       = map (@Ok Z) firsts
       /\ Forall (maximal_block Z.leb Z.geb [90; 40; 35; 92; 20; 15; 10; 88] 50 false)
            (combine firsts [2; 3]).
Proof.
  split; [reflexivity|].
  apply (found_runs_are_maximal_blocks Z.leb Z.geb
           [90; 40; 35; 92; 20; 15; 10; 88] 50 false [0; 2] [2; 3]).
  reflexivity.
Defined.

Lemma every_satisfying_residue_is_in_a_run_witness :
  getConsecutivepLDDTFromThreshold Z.leb Z.geb [90; 40; 35; 92; 20; 15; 10; 88] 50 false
  = Ok (Some [0; 2], Some [2; 3])
  /\ exists firsts,
       map (getitem (selectIndices Z.leb Z.geb [90; 40; 35; 92; 20; 15; 10; 88] 50 false))
         [0; 2]
       = map (@Ok Z) firsts
       /\ forall j,
            satisfied_at Z.leb Z.geb [90; 40; 35; 92; 20; 15; 10; 88] 50 false j ->
            Exists (fun r => covers r j) (combine firsts [2; 3]).
Proof.
  split; [reflexivity|].
  apply (every_satisfying_residue_is_in_a_run Z.leb Z.geb
           [90; 40; 35; 92; 20; 15; 10; 88] 50 false [0; 2] [2; 3]).
  reflexivity.
Defined.

Lemma starts_are_running_totals_witness :
  getConsecutivepLDDTFromThreshold Z.leb Z.geb [90; 40; 35; 92; 20; 15; 10; 88] 50 false
  = Ok (Some [0; 2], Some [2; 3])
  /\ [0; 2] = laid_from 0 [2; 3] /\ hd_error [0; 2] = Some 0.
Proof.
  split; [reflexivity|].
  apply (starts_are_running_totals Z.leb Z.geb
           [90; 40; 35; 92; 20; 15; 10; 88] 50 false [0; 2] [2; 3]).
  reflexivity.
Defined.

Lemma stretch_values_bounded_witness :
  getConsecutivepLDDTFromThreshold Z.leb Z.geb [90; 40; 35; 92; 20; 15; 10; 88] 50 false
  = Ok (Some [0; 2], Some [2; 3])
  /\ Forall (fun n => 1 <= n <= len [90; 40; 35; 92; 20; 15; 10; 88]) [2; 3]
  /\ Forall (fun p => 0 <= p < len [90; 40; 35; 92; 20; 15; 10; 88]) [0; 2].
Proof.
  split; [reflexivity|].
  apply (stretch_values_bounded Z.leb Z.geb
           [90; 40; 35; 92; 20; 15; 10; 88] 50 false [0; 2] [2; 3]).
  reflexivity.
Defined.

Lemma fraction_falls_with_min_length_witness :
  1 <= 3
  /\ exists q lens q' lens',
       getDisorderedFractionFrompLDDTs Z.leb Z.geb [90; 40; 35; 92; 20; 15; 10; 88] 50 1
       = Ok (q, lens)
       /\ getDisorderedFractionFrompLDDTs Z.leb Z.geb [90; 40; 35; 92; 20; 15; 10; 88] 50 3
          = Ok (q', lens')
       /\ (q' <= q)%Q.
Proof.
  split; [lia|].
  apply (fraction_falls_with_min_length Z.leb Z.geb
           [90; 40; 35; 92; 20; 15; 10; 88] 50 1 3).
  lia.
Defined.

Lemma fraction_rises_with_threshold_witness :
  (forall s, In s [90; 40; 35; 92; 20; 15; 10; 88] ->
             (s <=? 30) = true -> (s <=? 50) = true)
  /\ exists q lens q' lens',
       getDisorderedFractionFrompLDDTs Z.leb Z.geb [90; 40; 35; 92; 20; 15; 10; 88] 30 2
       = Ok (q, lens)
       /\ getDisorderedFractionFrompLDDTs Z.leb Z.geb [90; 40; 35; 92; 20; 15; 10; 88] 50 2
          = Ok (q', lens')
       /\ (q <= q')%Q.
Proof.
  assert (H : forall s, In s [90; 40; 35; 92; 20; 15; 10; 88] ->
                        (s <=? 30) = true -> (s <=? 50) = true).
  { intros s _ Hs. apply Z.leb_le. apply Z.leb_le in Hs. lia. }
  split; [exact H|].
  exact (fraction_rises_with_threshold Z.leb Z.geb
           [90; 40; 35; 92; 20; 15; 10; 88] 30 50 2 H).
Defined.

Lemma min_length_below_one_is_one_witness :
  -2 <= 1
  /\ getDisorderedFractionFrompLDDTs Z.leb Z.geb [10; 90; 10; 90; 10] 50 (-2)
     = getDisorderedFractionFrompLDDTs Z.leb Z.geb [10; 90; 10; 90; 10] 50 1.
Proof.
  split; [lia|].
  apply (min_length_below_one_is_one Z.leb Z.geb [10; 90; 10; 90; 10] 50 (-2)).
  lia.
Defined.

Lemma min_length_above_sequence_witness :
  len [10; 20; 90] < 4
  /\ exists q lens,
       getDisorderedFractionFrompLDDTs Z.leb Z.geb [10; 20; 90] 50 4 = Ok (q, lens)
       /\ (q == 0)%Q
       /\ reported_lengths lens = [].
Proof.
  split; [reflexivity|].
  apply (min_length_above_sequence_reports_nothing Z.leb Z.geb [10; 20; 90] 50 4).
  reflexivity.
Defined.

Lemma reported_lengths_meet_the_cutoff_witness :
  getDisorderedFractionFrompLDDTs Z.leb Z.geb [90; 40; 35; 92; 20; 15; 10; 88] 50 3
  = Ok (3 # 8, Some [3])
  /\ Forall (fun n => 3 <= n /\ 1 <= n <= len [90; 40; 35; 92; 20; 15; 10; 88]) [3]
  /\ sum [3] <= count_satisfying Z.leb Z.geb false 50 [90; 40; 35; 92; 20; 15; 10; 88].
Proof.
  split; [reflexivity|].
  apply (reported_lengths_meet_the_cutoff Z.leb Z.geb
           [90; 40; 35; 92; 20; 15; 10; 88] 50 3 (3 # 8) [3]).
  reflexivity.
Defined.

Lemma whole_sequence_is_one_run_witness :
  [10; 20; 30] <> []
  /\ forallb (satisfies Z.leb Z.geb false 50) [10; 20; 30] = true
  /\ getConsecutivepLDDTFromThreshold Z.leb Z.geb [10; 20; 30] 50 false
     = Ok (Some [0], Some [len [10; 20; 30]]).
Proof.
  split; [discriminate|]. split; [reflexivity|].
  apply (proj1 (whole_sequence_is_one_run Z.leb Z.geb [10; 20; 30] 50
                  ltac:(discriminate)) false).
  reflexivity.
Defined.

Lemma padding_changes_nothing_witness :
  forallb (fun s => negb (satisfies Z.leb Z.geb false 50 s)) [90; 80] = true
  /\ forallb (fun s => negb (satisfies Z.leb Z.geb false 50 s)) [95] = true
  /\ getConsecutivepLDDTFromThreshold Z.leb Z.geb
       ([90; 80] ++ [10; 90; 20] ++ [95]) 50 false
     = getConsecutivepLDDTFromThreshold Z.leb Z.geb [10; 90; 20] 50 false.
Proof.
  split; [reflexivity|]. split; [reflexivity|].
  apply (padding_changes_nothing Z.leb Z.geb [90; 80] [10; 90; 20] [95] 50 false);
    reflexivity.
Defined.

Lemma ordered_and_disordered_witness :
  Forall (fun s => (s >=? 50) = negb (s <=? 50)) [10; 90; 20]
  /\ sum (found_lengths (getConsecutiveDisorderedFrompLDDTs Z.leb Z.geb [10; 90; 20] 50))
     + sum (found_lengths (getConsecutiveOrderedFrompLDDTs Z.leb Z.geb [10; 90; 20] 50))
     = len [10; 90; 20].
Proof.
  assert (H : Forall (fun s => (s >=? 50) = negb (s <=? 50)) [10; 90; 20])
    by (repeat constructor).
  split; [exact H|].
  exact (ordered_and_disordered_runs_share_the_sequence Z.leb Z.geb [10; 90; 20] 50 H).
Defined.

Lemma first_atoms_or_stop_witness :
  Forall (fun r : list Z => r <> []) [[1; 2]; [3]]
  /\ exists all,
       getpLDDTsFromAlphaFoldPDBModel [[1; 2]; [3]] = Ok all
       /\ map (@hd_error Z) [[1; 2]; [3]] = map (@Some Z) all.
Proof.
  assert (H : Forall (fun r : list Z => r <> []) [[1; 2]; [3]])
    by (repeat constructor; discriminate).
  split; [exact H|].
  exact (proj1 (first_atoms_or_stop [[1; 2]; [3]]) H).
Defined.

Lemma whole_range_is_whole_sequence_witness :
  [[1; 2]; [3]] <> []
  /\ getpLDDTsSubSequenceFromAlphaFoldPDBModel [[1; 2]; [3]]
       (Some 1) (Some (len [[1; 2]; [3]]))
     = getpLDDTsSubSequenceFromAlphaFoldPDBModel [[1; 2]; [3]] None None.
Proof.
  split; [discriminate|].
  apply (whole_range_is_whole_sequence [[1; 2]; [3]]). discriminate.
Defined.

Lemma zero_start_is_not_rejected_witness :
  getpLDDTsFromAlphaFoldPDBModel [[1; 2]; [3]; [4]] = Ok [1; 3; 4]
  /\ 0 <= 2 < len [[1; 2]; [3]; [4]]
  /\ getpLDDTsSubSequenceFromAlphaFoldPDBModel [[1; 2]; [3]; [4]] (Some 0) (Some 2)
     = Ok []
  /\ getDisorderedFractionFromPDB Z.leb Z.geb [[1; 2]; [3]; [4]] 50 1 (Some 0) (Some 2)
     = Ok (0%Q, None).
Proof.
  split; [reflexivity|]. split; [unfold len; cbn; lia|].
  apply (zero_start_is_not_rejected Z.leb Z.geb [[1; 2]; [3]; [4]] 2 [1; 3; 4] 50 1);
    [reflexivity | unfold len; cbn; lia].
Defined.

Lemma sub_sequence_scores_by_residue_number_witness :
  1 <= 2 /\ 2 <= 3 /\ 3 <= len [[1; 2]; [3]; [4]; [5; 6]]
  /\ getpLDDTsFromAlphaFoldPDBModel [[1; 2]; [3]; [4]; [5; 6]] = Ok [1; 3; 4; 5]
  /\ exists sub,
       getpLDDTsSubSequenceFromAlphaFoldPDBModel [[1; 2]; [3]; [4]; [5; 6]]
         (Some 2) (Some 3) = Ok sub
       /\ forall r, 2 <= r <= 3 ->
            nth_error sub (Z.to_nat (r - 2)) = nth_error [1; 3; 4; 5] (Z.to_nat (r - 1)).
Proof.
  split; [lia|]. split; [lia|]. split; [unfold len; cbn; lia|].
  split; [reflexivity|].
  apply (sub_sequence_scores_by_residue_number
           [[1; 2]; [3]; [4]; [5; 6]] 2 3 [1; 3; 4; 5]);
    [lia | lia | unfold len; cbn; lia | reflexivity].
Defined.

Lemma range_failures_in_order_witness :
  2 < 3
  /\ getpLDDTsSubSequenceFromAlphaFoldPDBModel [[1; 2]; []] (Some 3) (Some 2)
     = Raise (AssertionError
         "Start Residue number sub-sequence is greater than end residue number!").
Proof.
  split; [lia|].
  apply (proj1 (range_failures_in_order [[1; 2]; []] 3 2)). lia.
Defined.

(** C7 (as stated, refuted): in the order direction the single score 90
    satisfies the threshold 50 and forms one block of length 1, so the
    claimed fraction is 1/1, but the analysis returns the fraction 0. *)
Lemma order_direction_share_not_returned :
  ~ (exists q lens,
       getDisorderedFractionFrompLDDTs Z.leb Z.geb [90] 50 1 = Ok (q, lens)
       /\ (0 <= q <= 1)%Q
       /\ Qeq q (Qdiv (inject_Z (sum (filter (fun n => 1 <=? n)
                                        (block_lengths
                                           (map (satisfies Z.leb Z.geb true 50) [90])))))
                       (inject_Z (len [90])))).
Proof.
  intros (q & lens & H & _ & Hq). vm_compute in H. injection H as <- _.
  vm_compute in Hq. discriminate.
Qed.

Lemma fraction_is_share_witness :
  [90; 40; 35; 92; 20; 15; 10; 88] <> []
  /\ exists q lens,
       getDisorderedFractionFrompLDDTs Z.leb Z.geb [90; 40; 35; 92; 20; 15; 10; 88] 50 3
       = Ok (q, lens)
       /\ (0 <= q <= 1)%Q
       /\ reported_lengths lens
          = filter (fun n => 3 <=? n)
              (block_lengths (map (fun s => s <=? 50) [90; 40; 35; 92; 20; 15; 10; 88]))
       /\ Qeq q (Qdiv (inject_Z (sum (filter (fun n => 3 <=? n)
                                        (block_lengths
                                           (map (fun s => s <=? 50)
                                              [90; 40; 35; 92; 20; 15; 10; 88])))))
                       (inject_Z (len [90; 40; 35; 92; 20; 15; 10; 88]))).
Proof.
  split; [discriminate|].
  apply (proj1 (fraction_is_share_of_long_disordered_blocks Z.leb Z.geb
                  [90; 40; 35; 92; 20; 15; 10; 88] 50 3 ltac:(discriminate))).
Defined.

End MoreScenarios.
